(** * poly-latency-arb-bot: the ingestion and signal pipeline, verified

    A shallow embedding of three TypeScript classes and the properties their
    specification states about them:

    - [Strategy]: [LatencySignalEngine] of [src/strategy/latency_signal.ts];
    - [Spot]:     [BinanceSpotFeed] of [src/data/spot/binance_ws.ts];
    - [Poly]:     [PolymarketFeed] of [src/data/polymarket/market_feed.ts].

    Numbers.  A JavaScript [number] is an IEEE-754 binary64 value, and so is
    Rocq's primitive [float]: prices, basis points, sizes and thresholds are
    [float]s and are computed with the rounding the program sees.  Quantities
    that the program only ever holds as integers (millisecond clocks read
    from [Date.now()], millisecond settings validated as [int()] by the
    environment schema, counters) are [Z] or [nat]; binary64 represents them
    exactly below 2^53, which is where the embedding is exact.  Where such an
    integer meets a [float] it is converted by [Z2float].

    Effects.  [Date.now()] is an argument [now]; the logger is the list of
    events a call returns (or, for the polling feed, appends to the world);
    class fields are a record threaded through the calls.

    Around these: the engine under sequences of calls ([EngineCalls]), the
    shape of the feed's windows ([SpotWindow]), the reconnect logic of the
    streaming feed ([SpotConn]), the CLOB client wrapper ([PolyClient]),
    the orderbook metrics of the market picker ([Metrics]), the order of a
    sorted side and the polling loops ([PolyOrder]), the logger of
    [src/infra/logger.ts] ([Logger]) and the picker's batches ([Picker]). *)

From Stdlib Require Import ZArith Floats Ascii String List Bool Lia Sorted.
From stdpp Require Import gmap strings list relations.

(** ** JavaScript numbers *)

Module JsNum.

(** The binary64 value nearest to an integer: how an integer-valued
    [number] enters floating-point arithmetic. *)
Definition Z2float (z : Z) : float :=
  SF2Prim (binary_normalize prec emax z 0 false).

(** [a > b], [a < b], [a >= b], [a <= b] on numbers: false as soon as one
    side is NaN. *)
Definition gt (a b : float) : bool := (b <? a)%float.
Definition lt (a b : float) : bool := (a <? b)%float.
Definition ge (a b : float) : bool := (b <=? a)%float.
Definition le (a b : float) : bool := (a <=? b)%float.

(** The global [isNaN] on a number, and [Math.abs]. *)
Definition isNaN (x : float) : bool := PrimFloat.is_nan x.
Definition Math_abs (x : float) : float := PrimFloat.abs x.

(** The literals of the program that are not integers. *)
Definition lit_0_8 : float := 0x1.999999999999ap-1%float.

(** Reading of decimal digits, for [parseFloatLit] below. *)
Definition is_digit (c : ascii) : bool :=
  let n := nat_of_ascii c in (48 <=? n)%nat && (n <=? 57)%nat.

Definition digit_val (c : ascii) : Z := Z.of_nat (nat_of_ascii c) - 48.

Fixpoint read_digits (l : list ascii) (acc : Z) (count : nat)
  : Z * nat * list ascii :=
  match l with
  | c :: l' =>
      if is_digit c then read_digits l' (10 * acc + digit_val c)%Z (S count)
      else (acc, count, l)
  | [] => (acc, count, [])
  end.

Definition is_prefix_of (p l : list ascii) : bool :=
  bool_decide (take (length p) l = p).

Definition parse_unsigned (l : list ascii) : float :=
  if is_prefix_of (list_ascii_of_string "Infinity") l then infinity
  else
    let '(ip, ni, rest) := read_digits l 0 0 in
    match rest with
    | "."%char :: frac =>
        let '(m, n, _) := read_digits frac ip ni in
        if (n =? 0)%nat then nan
        else (Z2float m / Z2float (10 ^ (Z.of_nat n - Z.of_nat ni)))%float
    | _ => if (ni =? 0)%nat then nan else Z2float ip
    end.

(** [parseFloat] on the literals the developments below feed it: an optional
    sign, then [Infinity] or decimal digits with an optional fraction; NaN
    when no number starts the text.  The digits are read as an integer and
    divided by the power of ten, one correctly rounded operation, which is
    the binary64 value [parseFloat] returns as long as the digits stay below
    2^53 and the power of ten below 10^23.  (Exponents and leading blanks,
    which [parseFloat] also reads, are left out.)  The functions of the
    program take [parseFloat] as a parameter; this instance serves the
    concrete runs. *)
Definition parseFloatLit (s : string) : float :=
  match list_ascii_of_string s with
  | "-"%char :: l => (- parse_unsigned l)%float
  | "+"%char :: l => parse_unsigned l
  | l => parse_unsigned l
  end.

End JsNum.

(** ** The environment ([src/config/env.ts]) *)

Module Env.

(** The settings the three classes read from [env]. *)
Record env := {
  SPOT_RETURN_WINDOW_MS : Z;
  SPOT_MOVE_THRESHOLD_BPS : float;
  SPOT_BUFFER_SAMPLE_MS : Z;
  POLYMARKET_TOKEN_ID : string;
  POLY_SNAPSHOT_INTERVAL_MS : Z;
  POLY_DEPTH_LEVELS : Z;
  ARB_MIN_POLY_DEPTH : float;
  ARB_MAX_POLY_SPREAD_BPS : float;
  ARB_MIN_EDGE_BPS : float;
  ARB_COOLDOWN_MS : Z
}.

(** The schema's defaults, for a given token. *)
Definition defaults (token : string) : env := {|
  SPOT_RETURN_WINDOW_MS := 60000;
  SPOT_MOVE_THRESHOLD_BPS := 50;
  SPOT_BUFFER_SAMPLE_MS := 250;
  POLYMARKET_TOKEN_ID := token;
  POLY_SNAPSHOT_INTERVAL_MS := 5000;
  POLY_DEPTH_LEVELS := 10;
  ARB_MIN_POLY_DEPTH := 50;
  ARB_MAX_POLY_SPREAD_BPS := 80;
  ARB_MIN_EDGE_BPS := 20;
  ARB_COOLDOWN_MS := 15000
|}.

End Env.

(** ** The signal engine ([src/strategy/latency_signal.ts]) *)

Module Strategy.
Import JsNum Env.
Local Open Scope Z_scope.

Inductive Direction := up | down.

(** [PolySnapshot], [ArbSignal] and [DiscardReason] of the strategy's types. *)
Record PolySnapshot := {
  tokenId : string;
  midPrice : float;
  spreadBps : float;
  depthTopN : float;
  timestamp : Z
}.

Record ArbSignal := {
  sig_timestamp : Z;
  spotSymbol : string;
  spotPrice : float;
  spotMoveBps : float;
  spotDirection : Direction;
  polyTokenId : string;
  polyMidPrice : float;
  polySpreadBps : float;
  polyDepth : float;
  edgeBps : float;
  reason : string
}.

Inductive DiscardReason :=
| no_poly_snapshot
| wide_spread
| low_depth
| cooldown
| insufficient_edge.

(** The values a log payload ([Record<string, unknown>]) holds here. *)
Inductive JsValue :=
| JStr (s : string)
| JNum (x : float)
| JInt (z : Z)
| JDir (d : Direction).

(** What the engine hands to the logger: [arb.discard] with its reason and
    the fields spread after it, [arb.signal] (the signal itself; the logger
    receives its numbers formatted by [toFixed]), and [arb.poly_update]. *)
Inductive LogEvent :=
| arb_discard (r : DiscardReason) (data : list (string * JsValue))
| arb_signal (s : ArbSignal)
| arb_poly_update (token : string) (mid : float) (bufferSize : nat).

(** The fields of the class: [polySnapshots] and [lastSignalTime]. *)
Record State := {
  polySnapshots : list PolySnapshot;
  lastSignalTime : Z
}.

(** [private polySnapshots = []; private lastSignalTime = 0]. *)
Definition init : State := {| polySnapshots := []; lastSignalTime := 0 |}.

Definition snapshotWindowMs : Z := 60000.

Section Engine.
Variable cfg : env.

(** [updatePolySnapshot]: push, then keep the snapshots not older than the
    cutoff. *)
Definition updatePolySnapshot (now : Z) (st : State) (snapshot : PolySnapshot)
  : State * list LogEvent :=
  let pushed := polySnapshots st ++ [snapshot] in
  let cutoff := now - snapshotWindowMs in
  let kept := List.filter (fun s => cutoff <=? timestamp s) pushed in
  ({| polySnapshots := kept; lastSignalTime := lastSignalTime st |},
   [arb_poly_update (tokenId snapshot) (midPrice snapshot) (length kept)]).

(** [getLatestPolySnapshot]: [null] on an empty array, else the element at
    [length - 1]. *)
Definition getLatestPolySnapshot (st : State) : option PolySnapshot :=
  if (length (polySnapshots st) =? 0)%nat then None
  else polySnapshots st !! (length (polySnapshots st) - 1)%nat.

(** [calculatePolyMovement]: 0 under two snapshots, else the return of the
    last mid price over the first.  (The inner default stands for indices
    that the length test has already shown to exist.) *)
Definition calculatePolyMovement (st : State) : float :=
  let l := polySnapshots st in
  if (length l <? 2)%nat then 0%float
  else
    match l !! 0%nat, l !! (length l - 1)%nat with
    | Some oldest, Some latest =>
        let returnRatio := (midPrice latest / midPrice oldest - 1)%float in
        (returnRatio * 10000)%float
    | _, _ => 0%float
    end.

Definition logDiscard (r : DiscardReason) (data : list (string * JsValue))
  : LogEvent := arb_discard r data.

Definition emitSignal (signal : ArbSignal) : LogEvent := arb_signal signal.

(** [processSpotMove]: the gates in program order, each [return] closing
    the call with the state it found. *)
Definition processSpotMove (now : Z) (st : State)
    (symbol : string) (price moveBps : float) (direction : Direction)
  : State * list LogEvent :=
  let spot := [("spotSymbol", JStr symbol); ("spotPrice", JNum price);
               ("spotMoveBps", JNum moveBps); ("spotDirection", JDir direction)] in
  match getLatestPolySnapshot st with
  | None => (st, [logDiscard no_poly_snapshot spot])
  | Some latestPoly =>
    if gt (spreadBps latestPoly) (ARB_MAX_POLY_SPREAD_BPS cfg) then
      (st, [logDiscard wide_spread
              (spot ++ [("polySpreadBps", JNum (spreadBps latestPoly));
                        ("maxAllowed", JNum (ARB_MAX_POLY_SPREAD_BPS cfg))])])
    else if lt (depthTopN latestPoly) (ARB_MIN_POLY_DEPTH cfg) then
      (st, [logDiscard low_depth
              (spot ++ [("polyDepth", JNum (depthTopN latestPoly));
                        ("minRequired", JNum (ARB_MIN_POLY_DEPTH cfg))])])
    else
      let timeSinceLastSignal := now - lastSignalTime st in
      if timeSinceLastSignal <? ARB_COOLDOWN_MS cfg then
        (st, [logDiscard cooldown
                (spot ++ [("timeSinceLastMs", JInt timeSinceLastSignal);
                          ("cooldownMs", JInt (ARB_COOLDOWN_MS cfg))])])
      else
        let polyMoveBps := calculatePolyMovement st in
        let edge := (Math_abs moveBps - Math_abs polyMoveBps)%float in
        if lt edge (ARB_MIN_EDGE_BPS cfg) then
          (st, [logDiscard insufficient_edge
                  (spot ++ [("polyMoveBps", JNum polyMoveBps);
                            ("edgeBps", JNum edge);
                            ("minRequired", JNum (ARB_MIN_EDGE_BPS cfg))])])
        else
          ({| polySnapshots := polySnapshots st; lastSignalTime := now |},
           [emitSignal {|
              sig_timestamp := now;
              spotSymbol := symbol;
              spotPrice := price;
              spotMoveBps := moveBps;
              spotDirection := direction;
              polyTokenId := tokenId latestPoly;
              polyMidPrice := midPrice latestPoly;
              polySpreadBps := spreadBps latestPoly;
              polyDepth := depthTopN latestPoly;
              edgeBps := edge;
              reason := "latency_opportunity" |}])
  end.

(** *** The specification's reading of the pipeline

    The five gates as the specification lists them, each as a test of its
    own on the state before the call, and the counterpart movement in the
    specification's words: from the oldest and the newest entry of the
    history, 0 under two entries. *)

Definition gate_order : list DiscardReason :=
  [no_poly_snapshot; wide_spread; low_depth; cooldown; insufficient_edge].

Definition spec_polyMoveBps (history : list PolySnapshot) : float :=
  match head history, last history with
  | Some oldest, Some latest =>
      if (2 <=? length history)%nat
      then ((midPrice latest / midPrice oldest - 1) * 10000)%float
      else 0%float
  | _, _ => 0%float
  end.

Definition spec_edgeBps (history : list PolySnapshot) (moveBps : float) : float :=
  (PrimFloat.abs moveBps - PrimFloat.abs (spec_polyMoveBps history))%float.

Definition gate_fails (now : Z) (st : State) (moveBps : float)
    (g : DiscardReason) : bool :=
  match g with
  | no_poly_snapshot => bool_decide (polySnapshots st = [])
  | wide_spread =>
      match last (polySnapshots st) with
      | Some latest => (ARB_MAX_POLY_SPREAD_BPS cfg <? spreadBps latest)%float
      | None => false
      end
  | low_depth =>
      match last (polySnapshots st) with
      | Some latest => (depthTopN latest <? ARB_MIN_POLY_DEPTH cfg)%float
      | None => false
      end
  | cooldown => now - lastSignalTime st <? ARB_COOLDOWN_MS cfg
  | insufficient_edge =>
      (spec_edgeBps (polySnapshots st) moveBps <? ARB_MIN_EDGE_BPS cfg)%float
  end.

(** What a call produced, read off its log: [Some r] for a discard with
    reason [r], [None] for an emitted signal. *)
Definition outcome_of (ev : LogEvent) : list (option DiscardReason) :=
  match ev with
  | arb_discard r _ => [Some r]
  | arb_signal _ => [None]
  | arb_poly_update _ _ _ => []
  end.

Definition outcomes (log : list LogEvent) : list (option DiscardReason) :=
  flat_map outcome_of log.

(** The edge a call reports: in the signal, or in the [insufficient_edge]
    payload. *)
Definition reported_edge (ev : LogEvent) : option float :=
  match ev with
  | arb_signal s => Some (edgeBps s)
  | arb_discard insufficient_edge data =>
      match List.find (fun kv => String.eqb (fst kv) "edgeBps") data with
      | Some (_, JNum e) => Some e
      | _ => None
      end
  | _ => None
  end.

(** The six ways a call can end, each with what it says of the gates: the
    relation the proofs below show [processSpotMove] to be in. *)
Inductive ending (now : Z) (st : State) (moveBps : float)
  : State -> list LogEvent -> Prop :=
| end_no_snapshot data :
    polySnapshots st = [] ->
    ending now st moveBps st [arb_discard no_poly_snapshot data]
| end_wide_spread latest data :
    last (polySnapshots st) = Some latest ->
    gate_fails now st moveBps wide_spread = true ->
    ending now st moveBps st [arb_discard wide_spread data]
| end_low_depth latest data :
    last (polySnapshots st) = Some latest ->
    gate_fails now st moveBps wide_spread = false ->
    gate_fails now st moveBps low_depth = true ->
    ending now st moveBps st [arb_discard low_depth data]
| end_cooldown latest data :
    last (polySnapshots st) = Some latest ->
    gate_fails now st moveBps wide_spread = false ->
    gate_fails now st moveBps low_depth = false ->
    gate_fails now st moveBps cooldown = true ->
    ending now st moveBps st [arb_discard cooldown data]
| end_insufficient_edge latest data :
    last (polySnapshots st) = Some latest ->
    gate_fails now st moveBps wide_spread = false ->
    gate_fails now st moveBps low_depth = false ->
    gate_fails now st moveBps cooldown = false ->
    gate_fails now st moveBps insufficient_edge = true ->
    reported_edge (arb_discard insufficient_edge data)
      = Some (spec_edgeBps (polySnapshots st) moveBps) ->
    ending now st moveBps st [arb_discard insufficient_edge data]
| end_signal latest s :
    last (polySnapshots st) = Some latest ->
    gate_fails now st moveBps wide_spread = false ->
    gate_fails now st moveBps low_depth = false ->
    gate_fails now st moveBps cooldown = false ->
    gate_fails now st moveBps insufficient_edge = false ->
    edgeBps s = spec_edgeBps (polySnapshots st) moveBps ->
    sig_timestamp s = now ->
    ending now st moveBps
      {| polySnapshots := polySnapshots st; lastSignalTime := now |}
      [arb_signal s].

End Engine.

(** A snapshot and settings for concrete runs. *)
Definition snap (mid spread depth : float) (ts : Z) : PolySnapshot :=
  {| tokenId := "tok"; midPrice := mid; spreadBps := spread;
     depthTopN := depth; timestamp := ts |}.

Definition cfg0 : env := defaults "tok".

Definition st_one : State :=
  {| polySnapshots := [snap 0.5 40 100 1000]; lastSignalTime := 0 |}.

Definition sig_one : ArbSignal :=
  {| sig_timestamp := 1700000000000; spotSymbol := "BTCUSDT";
     spotPrice := 65000; spotMoveBps := 60; spotDirection := up;
     polyTokenId := "tok"; polyMidPrice := 0.5; polySpreadBps := 40;
     polyDepth := 100; edgeBps := 60; reason := "latency_opportunity" |}.

End Strategy.

(** ** The streaming feed ([src/data/spot/binance_ws.ts]) *)

Module Spot.
Import JsNum Env.
Local Open Scope Z_scope.

Inductive Direction := up | down.

(** [SpotTick] and [PriceReturn] of [src/data/spot/types.ts]. *)
Record SpotTick := {
  symbol : string;
  price : float;
  tsExchange : Z;
  tsLocal : Z
}.

Record PriceReturn := {
  ret_symbol : string;
  currentPrice : float;
  pastPrice : float;
  returnBps : float;
  direction : Direction;
  windowMs : Z
}.

(** [spot.tick] (every tick, with its latency) and [spot.move] (the return
    that crossed the threshold; the logger receives [returnBps] formatted
    by [toFixed]). *)
Inductive LogEvent :=
| spot_tick (sym : string) (p : float) (latencyMs : Z) (tsE tsL : Z)
| spot_move (r : PriceReturn).

(** The three maps of the class, keyed by symbol. *)
Record State := {
  priceBuffer : gmap string (list SpotTick);
  latestPrice : gmap string float;
  lastSampleTime : gmap string Z
}.

Definition init : State :=
  {| priceBuffer := ∅; latestPrice := ∅; lastSampleTime := ∅ |}.

(** [calculateReturn]. *)
Definition calculateReturn (current past : SpotTick) : PriceReturn :=
  let returnRatio := (price current / price past - 1)%float in
  let bps := (returnRatio * 10000)%float in
  {| ret_symbol := symbol current;
     currentPrice := price current;
     pastPrice := price past;
     returnBps := bps;
     direction := if gt bps 0 then up else down;
     windowMs := tsLocal current - tsLocal past |}.

(** [while (buffer.length > 0 && buffer[0].tsLocal < cutoff) buffer.shift()]. *)
Fixpoint shiftOld (cutoff : Z) (buffer : list SpotTick) : list SpotTick :=
  match buffer with
  | t :: rest => if tsLocal t <? cutoff then shiftOld cutoff rest else buffer
  | [] => []
  end.

Section Feed.
Variable cfg : env.

(** The downsampling test of a tick: [lastSampleTime.get(symbol) || 0],
    then [(tsLocal - lastSample) >= SPOT_BUFFER_SAMPLE_MS]. *)
Definition shouldSample (st : State) (tick : SpotTick) : bool :=
  let lastSample := default 0 (lastSampleTime st !! symbol tick) in
  SPOT_BUFFER_SAMPLE_MS cfg <=? tsLocal tick - lastSample.

(** The body of [if (shouldSample)]: record the sample time, push the tick
    on the symbol's buffer (created empty when absent), shift the old
    ticks off its head. *)
Definition sampleTick (st : State) (tick : SpotTick) : State :=
  let buffer := default [] (priceBuffer st !! symbol tick) ++ [tick] in
  let cutoff := tsLocal tick - SPOT_RETURN_WINDOW_MS cfg in
  {| priceBuffer := <[symbol tick := shiftOld cutoff buffer]> (priceBuffer st);
     latestPrice := latestPrice st;
     lastSampleTime := <[symbol tick := tsLocal tick]> (lastSampleTime st) |}.

(** The state after the first half of [processTick]: the latest price is
    always set, the buffer only takes a sampled tick. *)
Definition updateBuffers (st : State) (tick : SpotTick) : State :=
  let st1 := {| priceBuffer := priceBuffer st;
                latestPrice := <[symbol tick := price tick]> (latestPrice st);
                lastSampleTime := lastSampleTime st |} in
  if shouldSample st1 tick then sampleTick st1 tick else st1.

(** [if (buffer && buffer.length > 1)]: the return of the incoming tick
    over [buffer[0]]. *)
Definition windowReturn (st : State) (tick : SpotTick) : option PriceReturn :=
  match priceBuffer st !! symbol tick with
  | Some buffer =>
      if (1 <? length buffer)%nat then
        match buffer !! 0%nat with
        | Some oldestTick => Some (calculateReturn tick oldestTick)
        | None => None
        end
      else None
  | None => None
  end.

(** The test that guards [spot.move]. *)
Definition moveGate (priceReturn : PriceReturn) : bool :=
  let minWindowMs := (Z2float (SPOT_RETURN_WINDOW_MS cfg) * lit_0_8)%float in
  ge (Z2float (windowMs priceReturn)) minWindowMs
  && ge (Math_abs (returnBps priceReturn)) (SPOT_MOVE_THRESHOLD_BPS cfg).

(** [processTick]. *)
Definition processTick (st : State) (tick : SpotTick) : State * list LogEvent :=
  let st' := updateBuffers st tick in
  let latencyMs := tsLocal tick - tsExchange tick in
  let tickLog :=
    spot_tick (symbol tick) (price tick) latencyMs (tsExchange tick) (tsLocal tick) in
  match windowReturn st' tick with
  | Some priceReturn =>
      if moveGate priceReturn
      then (st', [tickLog; spot_move priceReturn])
      else (st', [tickLog])
  | None => (st', [tickLog])
  end.

(** The feed's state after a sequence of ticks, in arrival order. *)
Definition run (st : State) (ticks : list SpotTick) : State :=
  fold_left (fun s t => fst (processTick s t)) ticks st.

(** The buffer of a symbol, empty when the map has none. *)
Definition window (st : State) (sym : string) : list SpotTick :=
  default [] (priceBuffer st !! sym).

(** *** The specification's reading of the return

    The return between the newest and the oldest resident tick of the
    window, computed when the window holds two ticks or more. *)
Definition spec_windowReturn (st : State) (sym : string) : option PriceReturn :=
  match head (window st sym), last (window st sym) with
  | Some oldest, Some newest =>
      if (2 <=? length (window st sym))%nat
      then Some (calculateReturn newest oldest)
      else None
  | _, _ => None
  end.

Definition moves (log : list LogEvent) : list PriceReturn :=
  flat_map (fun ev => match ev with spot_move r => [r] | _ => [] end) log.

(** Older, by local time. *)
Definition older (a b : SpotTick) : Prop := tsLocal a < tsLocal b.

(** What every run of the feed keeps true of a symbol's window. *)
Record window_ok (st : State) (sym : string) : Prop := {
  ok_sorted : StronglySorted older (window st sym);
  ok_sampled : Forall (fun a => tsLocal a <= default 0 (lastSampleTime st !! sym))
                      (window st sym);
  ok_fresh : lastSampleTime st !! sym = None -> window st sym = [];
  ok_resident : forall ts, lastSampleTime st !! sym = Some ts ->
      Forall (fun a => ts - SPOT_RETURN_WINDOW_MS cfg <= tsLocal a) (window st sym)
}.

End Feed.

(** Ticks and settings for concrete runs. *)
Definition tick (p : float) (ts : Z) : SpotTick :=
  {| symbol := "BTCUSDT"; price := p; tsExchange := ts; tsLocal := ts |}.

Definition cfg1 : env := {|
  SPOT_RETURN_WINDOW_MS := 1000;
  SPOT_MOVE_THRESHOLD_BPS := 50;
  SPOT_BUFFER_SAMPLE_MS := 250;
  POLYMARKET_TOKEN_ID := "tok";
  POLY_SNAPSHOT_INTERVAL_MS := 5000;
  POLY_DEPTH_LEVELS := 1;
  ARB_MIN_POLY_DEPTH := 50;
  ARB_MAX_POLY_SPREAD_BPS := 80;
  ARB_MIN_EDGE_BPS := 20;
  ARB_COOLDOWN_MS := 15000
|}.

End Spot.

(** ** The polling feed ([src/data/polymarket/market_feed.ts]) *)

Module Poly.
Import JsNum Env.
Local Open Scope Z_scope.

(** [PolyOrderbookLevel], [PolyOrderbook] and [PolyMarketData] of
    [src/data/polymarket/types.ts]; prices and sizes arrive as text. *)
Record PolyOrderbookLevel := {
  price : string;
  size : string
}.

Record PolyOrderbook := {
  bids : list PolyOrderbookLevel;
  asks : list PolyOrderbookLevel
}.

Record PolyMarketData := {
  tokenId : string;
  midPrice : float;
  bestBid : float;
  bestAsk : float;
  spreadBps : float;
  depthTopN : float;
  tsLocal : Z
}.

(** How [await client.getOrderbook(tokenId)] ends: with a book, with
    [null], or by throwing. *)
Inductive FetchResult :=
| Resolved (orderbook : option PolyOrderbook)
| Rejected.

Inductive LogEvent :=
| poly_feed_already_running
| poly_feed_started
| poly_feed_stopped
| poly_poll_skipped
| poly_snapshot (data : PolyMarketData)
| poly_poll_error (consecutiveErrors : nat) (nextBackoffMs : Z)
| poly_poll_backoff (backoffMs : Z) (consecutiveErrors : nat)
| poly_orderbook_invalid (nbids nasks : nat)
| poly_orderbook_invalid_prices (bb ba : float).

(** The fields of the class.  [pollTimer] holds the handle of the timer set
    last, when there is one. *)
Record Feed := {
  pollTimer : option nat;
  inFlight : bool;
  isRunning : bool;
  consecutiveErrors : nat;
  currentBackoffMs : Z
}.

Definition maxBackoffMs : Z := 30000.

(** The feed in its event loop: the object, the timers set and not yet
    fired or cleared (handle and delay), the next handle [setTimeout]
    returns, the calls of [getOrderbook] that have not settled, and the log
    so far. *)
Record World := {
  feed : Feed;
  timers : list (nat * Z);
  nextHandle : nat;
  pendingFetches : nat;
  log : list LogEvent
}.

Definition newFeed : Feed :=
  {| pollTimer := None; inFlight := false; isRunning := false;
     consecutiveErrors := 0; currentBackoffMs := 0 |}.

Definition init : World :=
  {| feed := newFeed; timers := []; nextHandle := 0; pendingFetches := 0;
     log := [] |}.

Definition withFeed (f : Feed) (w : World) : World :=
  {| feed := f; timers := timers w; nextHandle := nextHandle w;
     pendingFetches := pendingFetches w; log := log w |}.

Definition logEvent (ev : LogEvent) (w : World) : World :=
  {| feed := feed w; timers := timers w; nextHandle := nextHandle w;
     pendingFetches := pendingFetches w; log := log w ++ [ev] |}.

(** [setTimeout] and [clearTimeout] of the platform. *)
Definition setTimeout (delay : Z) (w : World) : nat * World :=
  (nextHandle w,
   {| feed := feed w; timers := timers w ++ [(nextHandle w, delay)];
      nextHandle := S (nextHandle w); pendingFetches := pendingFetches w;
      log := log w |}).

(** Timer [h] leaves the pending timers: it was cleared, or it fires. *)
Definition dropTimer (h : nat) (w : World) : World :=
  {| feed := feed w;
     timers := List.filter (fun t => negb (fst t =? h)%nat) (timers w);
     nextHandle := nextHandle w; pendingFetches := pendingFetches w;
     log := log w |}.

Definition clearTimeout (h : nat) (w : World) : World := dropTimer h w.

Section Feed.
Variable cfg : env.
Variable parseFloat : string -> float.

Definition baseIntervalMs : Z := POLY_SNAPSHOT_INTERVAL_MS cfg.

(** [Array.prototype.sort] with a comparator, on a copy: a stable sort,
    where [a] goes after [b] exactly when the comparator is positive on
    [(a, b)] (a NaN result counts as 0).  Insertion from the right is one
    such sort; every stable sort agrees with it when the comparator is
    consistent. *)
Fixpoint insertBy (cmp : PolyOrderbookLevel -> PolyOrderbookLevel -> float)
    (x : PolyOrderbookLevel) (l : list PolyOrderbookLevel) :=
  match l with
  | y :: l' => if gt (cmp x y) 0 then y :: insertBy cmp x l' else x :: l
  | [] => [x]
  end.

Definition sortBy (cmp : PolyOrderbookLevel -> PolyOrderbookLevel -> float)
    (l : list PolyOrderbookLevel) : list PolyOrderbookLevel :=
  fold_right (insertBy cmp) [] l.

(** [sortBidsDesc] and [sortAsksAsc]. *)
Definition sortBidsDesc (bs : list PolyOrderbookLevel) :=
  sortBy (fun a b =>
            let priceA := parseFloat (price a) in
            let priceB := parseFloat (price b) in
            (priceB - priceA)%float) bs.

Definition sortAsksAsc (l : list PolyOrderbookLevel) :=
  sortBy (fun a b =>
            let priceA := parseFloat (price a) in
            let priceB := parseFloat (price b) in
            (priceA - priceB)%float) l.

(** One [for] loop of [calculateDepth]: the first [min(topN, length)]
    levels, each size added unless it is NaN. *)
Definition addSizes (levels : list PolyOrderbookLevel) (totalDepth : float)
  : float :=
  fold_left (fun total lvl =>
               let sz := parseFloat (size lvl) in
               if negb (isNaN sz) then (total + sz)%float else total)
            (take (Z.to_nat (POLY_DEPTH_LEVELS cfg)) levels) totalDepth.

Definition calculateDepth (sortedBids sortedAsks : list PolyOrderbookLevel)
  : float :=
  addSizes sortedAsks (addSizes sortedBids 0%float).

(** [normalizeOrderbook]: [null] (here [None]) with its log line, or the
    market data. *)
Definition normalizeOrderbook (now : Z) (orderbook : PolyOrderbook)
  : option PolyMarketData * list LogEvent :=
  match bids orderbook, asks orderbook with
  | [], _ | _, [] =>
      (None, [poly_orderbook_invalid (length (bids orderbook))
                                     (length (asks orderbook))])
  | b0 :: _, a0 :: _ =>
      let sortedBids := sortBidsDesc (bids orderbook) in
      let sortedAsks := sortAsksAsc (asks orderbook) in
      let bb := parseFloat (price (hd b0 sortedBids)) in
      let ba := parseFloat (price (hd a0 sortedAsks)) in
      if isNaN bb || isNaN ba || le bb 0 || le ba 0 then
        (None, [poly_orderbook_invalid_prices bb ba])
      else
        let mid := ((bb + ba) / 2)%float in
        let spread := ((ba - bb) / mid * 10000)%float in
        let depth := calculateDepth sortedBids sortedAsks in
        (Some {| tokenId := POLYMARKET_TOKEN_ID cfg;
                 midPrice := mid;
                 bestBid := bb;
                 bestAsk := ba;
                 spreadBps := spread;
                 depthTopN := depth;
                 tsLocal := now |}, [])
  end.

(** [handlePollError]. *)
Definition handlePollError (w : World) : World :=
  let n := S (consecutiveErrors (feed w)) in
  let backoffMs := Z.min (baseIntervalMs * 2 ^ (Z.of_nat n - 1)) maxBackoffMs in
  let f := {| pollTimer := pollTimer (feed w); inFlight := inFlight (feed w);
              isRunning := isRunning (feed w);
              consecutiveErrors := n; currentBackoffMs := backoffMs |} in
  let w1 := logEvent (poly_poll_error n backoffMs) (withFeed f w) in
  if (1 <? n)%nat then logEvent (poly_poll_backoff backoffMs n) w1 else w1.

(** [schedulePoll]: nothing unless running; else a timer with the backoff
    when there is one, the base interval otherwise. *)
Definition schedulePoll (w : World) : World :=
  if negb (isRunning (feed w)) then w
  else
    let delay := if 0 <? currentBackoffMs (feed w)
                 then currentBackoffMs (feed w) else baseIntervalMs in
    let '(h, w1) := setTimeout delay w in
    withFeed {| pollTimer := Some h; inFlight := inFlight (feed w1);
                isRunning := isRunning (feed w1);
                consecutiveErrors := consecutiveErrors (feed w1);
                currentBackoffMs := currentBackoffMs (feed w1) |} w1.

(** [start] and [stop]. *)
Definition start (w : World) : World :=
  if isRunning (feed w) then logEvent poly_feed_already_running w
  else
    let f := {| pollTimer := pollTimer (feed w); inFlight := inFlight (feed w);
                isRunning := true; consecutiveErrors := 0;
                currentBackoffMs := 0 |} in
    schedulePoll (logEvent poly_feed_started (withFeed f w)).

Definition stop (w : World) : World :=
  let w1 := match pollTimer (feed w) with
            | Some h =>
                withFeed {| pollTimer := None; inFlight := inFlight (feed w);
                            isRunning := isRunning (feed w);
                            consecutiveErrors := consecutiveErrors (feed w);
                            currentBackoffMs := currentBackoffMs (feed w) |}
                         (clearTimeout h w)
            | None => w
            end in
  let f := {| pollTimer := pollTimer (feed w1); inFlight := inFlight (feed w1);
              isRunning := false;
              consecutiveErrors := consecutiveErrors (feed w1);
              currentBackoffMs := currentBackoffMs (feed w1) |} in
  logEvent poly_feed_stopped (withFeed f w1).

(** [poll], up to its [await]: skipped (with its log line, [false]) when a
    poll is in flight; else the flag is set and [getOrderbook] is called
    ([true]: the call is suspended on the fetch). *)
Definition poll_begin (w : World) : World * bool :=
  if inFlight (feed w) then (logEvent poly_poll_skipped w, false)
  else
    let f := {| pollTimer := pollTimer (feed w); inFlight := true;
                isRunning := isRunning (feed w);
                consecutiveErrors := consecutiveErrors (feed w);
                currentBackoffMs := currentBackoffMs (feed w) |} in
    ({| feed := f; timers := timers w; nextHandle := nextHandle w;
        pendingFetches := S (pendingFetches w); log := log w |}, true).

(** [poll], from the [await] on: the [try] with its [catch], then the
    [finally] that clears the flag. *)
Definition poll_resume (now : Z) (r : FetchResult) (w : World) : World :=
  let w1 :=
    match r with
    | Rejected => handlePollError w
    | Resolved None => handlePollError w
    | Resolved (Some orderbook) =>
        let '(marketData, lg) := normalizeOrderbook now orderbook in
        let w0 := fold_left (fun acc ev => logEvent ev acc) lg w in
        match marketData with
        | Some md =>
            let f := {| pollTimer := pollTimer (feed w0);
                        inFlight := inFlight (feed w0);
                        isRunning := isRunning (feed w0);
                        consecutiveErrors := 0; currentBackoffMs := 0 |} in
            logEvent (poly_snapshot md) (withFeed f w0)
        | None => handlePollError w0
        end
    end in
  withFeed {| pollTimer := pollTimer (feed w1); inFlight := false;
              isRunning := isRunning (feed w1);
              consecutiveErrors := consecutiveErrors (feed w1);
              currentBackoffMs := currentBackoffMs (feed w1) |} w1.

(** The timer's callback, [await this.poll(); this.schedulePoll()], when
    timer [h] fires: a skipped poll returns at once and the next poll is
    scheduled; a started one leaves the callback suspended. *)
Definition timerFires (h : nat) (w : World) : World :=
  let w0 := dropTimer h w in
  let '(w1, suspended) := poll_begin w0 in
  if suspended then w1 else schedulePoll w1.

(** A pending fetch settles: the suspended callback runs to its end. *)
Definition fetchSettles (now : Z) (r : FetchResult) (w : World) : World :=
  let w0 := {| feed := feed w; timers := timers w; nextHandle := nextHandle w;
               pendingFetches := pred (pendingFetches w); log := log w |} in
  schedulePoll (poll_resume now r w0).

(** What can happen to the feed: its owner starts or stops it, a timer
    that is set fires, a fetch that is pending settles. *)
Inductive step : World -> World -> Prop :=
| step_start w : step w (start w)
| step_stop w : step w (stop w)
| step_timer w h d : (h, d) ∈ timers w -> step w (timerFires h w)
| step_settle w now r :
    (0 < pendingFetches w)%nat -> step w (fetchSettles now r w).

Definition reachable (w : World) : Prop := rtc step init w.

(** The flag and the pending fetches go together. *)
Definition in_flight_inv (w : World) : Prop :=
  pendingFetches w = if inFlight (feed w) then 1%nat else 0%nat.

(** The world after [n] polls in a row that end in an error, from a feed
    just started. *)
Fixpoint afterErrors (n : nat) (w : World) : World :=
  match n with
  | O => w
  | S k => handlePollError (afterErrors k w)
  end.

(** *** The specification's reading of validation

    A snapshot is invalid when a side is empty, or a best price is not
    finite or not above 0. *)
Definition spec_invalid (orderbook : PolyOrderbook) : bool :=
  match bids orderbook, asks orderbook with
  | [], _ | _, [] => true
  | b0 :: _, a0 :: _ =>
      let bb := parseFloat (price (hd b0 (sortBidsDesc (bids orderbook)))) in
      let ba := parseFloat (price (hd a0 (sortAsksAsc (asks orderbook)))) in
      negb (PrimFloat.is_finite bb) || negb (PrimFloat.is_finite ba)
      || (bb <=? 0)%float || (ba <=? 0)%float
  end.

End Feed.

(** Books and settings for concrete runs. *)
Definition lvl (p s : string) : PolyOrderbookLevel := {| price := p; size := s |}.

Definition crossedBook : PolyOrderbook :=
  {| bids := [lvl "99" "5"; lvl "101" "3"];
     asks := [lvl "102" "4"; lvl "100" "2"] |}.

Definition infiniteBidBook : PolyOrderbook :=
  {| bids := [lvl "Infinity" "1"]; asks := [lvl "1" "1"] |}.

Definition cfg5 : env := defaults "tok".

(** A feed started, its first poll in flight; and the same feed stopped
    and started again before that poll has settled. *)
Definition inFlightWorld : World := timerFires cfg5 0 (start cfg5 init).

Definition restartedWorld : World := start cfg5 (stop inFlightWorld).

Definition cfgDepth1 : env := {|
  SPOT_RETURN_WINDOW_MS := 60000;
  SPOT_MOVE_THRESHOLD_BPS := 50;
  SPOT_BUFFER_SAMPLE_MS := 250;
  POLYMARKET_TOKEN_ID := "tok";
  POLY_SNAPSHOT_INTERVAL_MS := 5000;
  POLY_DEPTH_LEVELS := 1;
  ARB_MIN_POLY_DEPTH := 50;
  ARB_MAX_POLY_SPREAD_BPS := 80;
  ARB_MIN_EDGE_BPS := 20;
  ARB_COOLDOWN_MS := 15000
|}.

End Poly.

(** ** The engine under a sequence of calls *)

Module EngineCalls.
Import JsNum Env Strategy.
Local Open Scope Z_scope.

(** The two entry points of the engine, as its owner calls them. *)
Inductive Call :=
| update (now : Z) (snapshot : PolySnapshot)
| move (now : Z) (symbol : string) (price moveBps : float) (direction : Direction).

Section Calls.
Variable cfg : env.

Definition call (st : State) (c : Call) : State * list LogEvent :=
  match c with
  | update now snapshot => updatePolySnapshot now st snapshot
  | move now symbol price moveBps direction =>
      processSpotMove cfg now st symbol price moveBps direction
  end.

(** A sequence of calls, in order, with all they logged. *)
Fixpoint runCalls (st : State) (calls : list Call) : State * list LogEvent :=
  match calls with
  | [] => (st, [])
  | c :: rest =>
      let '(st1, log1) := call st c in
      let '(st2, log2) := runCalls st1 rest in
      (st2, log1 ++ log2)
  end.

End Calls.

Definition signals (log : list LogEvent) : list ArbSignal :=
  flat_map (fun ev => match ev with arb_signal s => [s] | _ => [] end) log.

(** The snapshots handed to [updatePolySnapshot], and the clocks it read. *)
Definition pushed (calls : list Call) : list PolySnapshot :=
  flat_map (fun c => match c with update _ s => [s] | _ => [] end) calls.

Definition updateClocks (calls : list Call) : list Z :=
  flat_map (fun c => match c with update now _ => [now] | _ => [] end) calls.

(** Each time is at least [gap] after the one before, the first one at
    least [gap] after [floor]. *)
Fixpoint spaced (gap floor : Z) (ts : list Z) : Prop :=
  match ts with
  | [] => True
  | t :: rest => floor + gap <= t /\ spaced gap t rest
  end.

Definition nanSnap : PolySnapshot := snap nan nan nan 1000.

End EngineCalls.

(** ** The shape of the streaming feed's windows *)

Module SpotWindow.
Import JsNum Env Spot.
Local Open Scope Z_scope.

Section Feed.
Variable cfg : env.

(** [a] was sampled at least one sampling interval before [b]. *)
Definition gapped (a b : SpotTick) : Prop :=
  tsLocal a + SPOT_BUFFER_SAMPLE_MS cfg <= tsLocal b.

(** The shape every run of the feed keeps for a symbol's window. *)
Record window_shape (st : State) (sym : string) : Prop := {
  shape_gapped : StronglySorted gapped (window st sym);
  shape_newest : forall ts, lastSampleTime st !! sym = Some ts ->
      exists t, last (window st sym) = Some t /\ tsLocal t = ts;
  shape_fresh : lastSampleTime st !! sym = None -> window st sym = [];
  shape_within : forall ts, lastSampleTime st !! sym = Some ts ->
      Forall (fun a => ts - SPOT_RETURN_WINDOW_MS cfg <= tsLocal a <= ts)
             (window st sym)
}.

End Feed.

(** The ticks of one symbol, in arrival order. *)
Definition ticksOf (sym : string) (ticks : list SpotTick) : list SpotTick :=
  List.filter (fun t => String.eqb (symbol t) sym) ticks.

Definition tickOf (sym : string) (p : float) (ts : Z) : SpotTick :=
  {| symbol := sym; price := p; tsExchange := ts; tsLocal := ts |}.

End SpotWindow.

(** ** The streaming feed's connection ([src/data/spot/binance_ws.ts]) *)

Module SpotConn.
Local Open Scope Z_scope.

(** What the connection code hands to the logger. *)
Inductive LogEvent :=
| ws_connected
| ws_error
| ws_disconnected (reconnectAttempt : nat)
| ws_connection_failed
| ws_reconnecting (attempt : nat) (delayMs : Z).

(** The connection fields of [BinanceSpotFeed]; sockets and timers are
    known by the handle the platform gave them. *)
Record Feed := {
  ws : option nat;
  reconnectAttempt : nat;
  reconnectTimer : option nat;
  snapshotTimer : option nat;
  isShuttingDown : bool
}.

(** The feed in its event loop: the object, the sockets created whose
    close event has not fired yet, the reconnect timers set and neither
    fired nor cleared (handle and delay), the intervals running, the next
    handle, and the log so far. *)
Record World := {
  feed : Feed;
  sockets : list nat;
  timers : list (nat * Z);
  intervals : list nat;
  nextHandle : nat;
  log : list LogEvent
}.

Definition newFeed : Feed :=
  {| ws := None; reconnectAttempt := 0; reconnectTimer := None;
     snapshotTimer := None; isShuttingDown := false |}.

Definition init : World :=
  {| feed := newFeed; sockets := []; timers := []; intervals := [];
     nextHandle := 0; log := [] |}.

Definition logEvent (ev : LogEvent) (w : World) : World :=
  {| feed := feed w; sockets := sockets w; timers := timers w;
     intervals := intervals w; nextHandle := nextHandle w;
     log := log w ++ [ev] |}.

(** [const delays = [1000, 2000, 5000, 10000, 30000]] and
    [delays[Math.min(attempt, delays.length - 1)]]. *)
Definition delays : list Z := [1000; 2000; 5000; 10000; 30000].

Definition reconnectDelay (attempt : nat) : Z :=
  nth (Nat.min attempt (length delays - 1)) delays 0.

(** [scheduleReconnect]. *)
Definition scheduleReconnect (w : World) : World :=
  let delay := reconnectDelay (reconnectAttempt (feed w)) in
  let w1 := logEvent (ws_reconnecting (reconnectAttempt (feed w) + 1) delay) w in
  {| feed := {| ws := ws (feed w1);
                reconnectAttempt := reconnectAttempt (feed w1);
                reconnectTimer := Some (nextHandle w1);
                snapshotTimer := snapshotTimer (feed w1);
                isShuttingDown := isShuttingDown (feed w1) |};
     sockets := sockets w1;
     timers := timers w1 ++ [(nextHandle w1, delay)];
     intervals := intervals w1;
     nextHandle := S (nextHandle w1);
     log := log w1 |}.

(** [connect]: the socket is created and its handlers attached, or the
    constructor throws ([throws]) and the [catch] runs. *)
Definition connect (throws : bool) (w : World) : World :=
  if throws then
    let w1 := logEvent ws_connection_failed w in
    if negb (isShuttingDown (feed w1)) then scheduleReconnect w1 else w1
  else
    {| feed := {| ws := Some (nextHandle w);
                  reconnectAttempt := reconnectAttempt (feed w);
                  reconnectTimer := reconnectTimer (feed w);
                  snapshotTimer := snapshotTimer (feed w);
                  isShuttingDown := isShuttingDown (feed w) |};
       sockets := sockets w ++ [nextHandle w];
       timers := timers w;
       intervals := intervals w;
       nextHandle := S (nextHandle w);
       log := log w |}.

(** The handlers [connect] attaches: [onopen], [onerror], [onclose]. *)
Definition onopen (w : World) : World :=
  logEvent ws_connected
    {| feed := {| ws := ws (feed w); reconnectAttempt := 0;
                  reconnectTimer := reconnectTimer (feed w);
                  snapshotTimer := snapshotTimer (feed w);
                  isShuttingDown := isShuttingDown (feed w) |};
       sockets := sockets w; timers := timers w; intervals := intervals w;
       nextHandle := nextHandle w; log := log w |}.

Definition onerror (w : World) : World := logEvent ws_error w.

Definition onclose (id : nat) (w : World) : World :=
  let w0 := {| feed := feed w;
               sockets := List.filter (fun s => negb (s =? id)%nat) (sockets w);
               timers := timers w; intervals := intervals w;
               nextHandle := nextHandle w; log := log w |} in
  let w1 := logEvent (ws_disconnected (reconnectAttempt (feed w0))) w0 in
  if negb (isShuttingDown (feed w1)) then scheduleReconnect w1 else w1.

(** The callback of the reconnect timer, when timer [h] fires. *)
Definition timerFires (h : nat) (throws : bool) (w : World) : World :=
  let w0 := {| feed := {| ws := ws (feed w);
                          reconnectAttempt := S (reconnectAttempt (feed w));
                          reconnectTimer := reconnectTimer (feed w);
                          snapshotTimer := snapshotTimer (feed w);
                          isShuttingDown := isShuttingDown (feed w) |};
               sockets := sockets w;
               timers := List.filter (fun t => negb (fst t =? h)%nat) (timers w);
               intervals := intervals w; nextHandle := nextHandle w;
               log := log w |} in
  connect throws w0.

(** [startSnapshotTimer]: the interval is set and its handle kept. *)
Definition startSnapshotTimer (w : World) : World :=
  {| feed := {| ws := ws (feed w);
                reconnectAttempt := reconnectAttempt (feed w);
                reconnectTimer := reconnectTimer (feed w);
                snapshotTimer := Some (nextHandle w);
                isShuttingDown := isShuttingDown (feed w) |};
     sockets := sockets w; timers := timers w;
     intervals := intervals w ++ [nextHandle w];
     nextHandle := S (nextHandle w); log := log w |}.

(** [start] and [stop].  A socket that [stop] closes stays among the
    sockets until its close event fires. *)
Definition start (throws : bool) (w : World) : World :=
  startSnapshotTimer (connect throws w).

Definition stop (w : World) : World :=
  let f := feed w in
  {| feed := {| ws := None; reconnectAttempt := reconnectAttempt f;
                reconnectTimer := None; snapshotTimer := None;
                isShuttingDown := true |};
     sockets := sockets w;
     timers := match reconnectTimer f with
               | Some h => List.filter (fun t => negb (fst t =? h)%nat) (timers w)
               | None => timers w
               end;
     intervals := match snapshotTimer f with
                  | Some h => List.filter (fun i => negb (i =? h)%nat) (intervals w)
                  | None => intervals w
                  end;
     nextHandle := nextHandle w;
     log := log w |}.

(** What can happen to the connection. *)
Inductive step : World -> World -> Prop :=
| step_start w throws : step w (start throws w)
| step_stop w : step w (stop w)
| step_open w id : id ∈ sockets w -> step w (onopen w)
| step_error w id : id ∈ sockets w -> step w (onerror w)
| step_close w id : id ∈ sockets w -> step w (onclose id w)
| step_timer w h d throws : (h, d) ∈ timers w -> step w (timerFires h throws w).

(** The delays of the reconnects a log announces. *)
Definition announced (l : list LogEvent) : list Z :=
  flat_map (fun ev => match ev with ws_reconnecting _ d => [d] | _ => [] end) l.

(** One failed round: the current socket closes, and the reconnect timer
    that this sets fires and connects again. *)
Definition failedRound (w : World) : World :=
  match ws (feed w) with
  | Some id =>
      let w1 := onclose id w in
      match reconnectTimer (feed w1) with
      | Some h => timerFires h false w1
      | None => w1
      end
  | None => w
  end.

End SpotConn.

(** ** The CLOB client wrapper ([PolyClient.getOrderbook]) *)

Module PolyClient.
Import JsNum Env Poly.
Local Open Scope Z_scope.

(** What [ClobClient.getOrderBook] can give [PolyClient.getOrderbook]: it
    throws, or returns nothing, or a book either side of which may be
    missing. *)
Record ClobBook := {
  clob_bids : option (list PolyOrderbookLevel);
  clob_asks : option (list PolyOrderbookLevel)
}.

Inductive ClobReply :=
| ClobThrows
| ClobReturns (book : option ClobBook).

Inductive ClientLog :=
| poly_orderbook_empty
| poly_orderbook_error.

(** [PolyClient.getOrderbook]: [null] for no book and for a call that
    throws (the [catch] returns [null]), else the book with [[]] for a
    missing side. *)
Definition getOrderbook (reply : ClobReply)
  : option PolyOrderbook * list ClientLog :=
  match reply with
  | ClobThrows => (None, [poly_orderbook_error])
  | ClobReturns None => (None, [poly_orderbook_empty])
  | ClobReturns (Some orderbook) =>
      (Some {| bids := default [] (clob_bids orderbook);
               asks := default [] (clob_asks orderbook) |}, [])
  end.

(** How the [await] of [poll] ends when the client is [PolyClient]. *)
Definition fetched (reply : ClobReply) : FetchResult :=
  Resolved (fst (getOrderbook reply)).

(** A reply without a usable book: thrown, empty, or a side missing or
    without levels. *)
Definition unusable (reply : ClobReply) : bool :=
  match reply with
  | ClobThrows | ClobReturns None => true
  | ClobReturns (Some b) =>
      match clob_bids b, clob_asks b with
      | Some (_ :: _), Some (_ :: _) => false
      | _, _ => true
      end
  end.

End PolyClient.

(** ** Orderbook metrics ([calculateOrderbookMetrics]) *)

Module Metrics.
Import JsNum Env Poly.
Local Open Scope Z_scope.

(** [OrderbookMetrics] of the orderbook metrics module. *)
Record OrderbookMetrics := {
  tokenId : string;
  bestBid : float;
  bestAsk : float;
  midPrice : float;
  spreadBps : float;
  depthTopN : float;
  bidLevels : nat;
  askLevels : nat;
  valid : bool;
  error : option string
}.

Section Calc.
Variable parseFloat : string -> float.

(** One of the two [for] loops over the top levels. *)
Definition sumSizes (depthLevels : Z) (levels : list PolyOrderbookLevel)
    (depth : float) : float :=
  fold_left (fun total lvl =>
               let sz := parseFloat (size lvl) in
               if negb (isNaN sz) then (total + sz)%float else total)
            (take (Z.to_nat depthLevels) levels) depth.

(** [calculateOrderbookMetrics]. *)
Definition calculateOrderbookMetrics (token : string)
    (bs az : list PolyOrderbookLevel) (depthLevels : Z) : OrderbookMetrics :=
  match bs, az with
  | [], _ | _, [] =>
      {| tokenId := token; bestBid := 0; bestAsk := 0; midPrice := 0;
         spreadBps := 0; depthTopN := 0; bidLevels := 0; askLevels := 0;
         valid := false; error := Some "No bids or asks available" |}
  | b0 :: _, a0 :: _ =>
      let sortedBids :=
        sortBy (fun a b => (parseFloat (price b) - parseFloat (price a))%float) bs in
      let sortedAsks :=
        sortBy (fun a b => (parseFloat (price a) - parseFloat (price b))%float) az in
      let bb := parseFloat (price (hd b0 sortedBids)) in
      let ba := parseFloat (price (hd a0 sortedAsks)) in
      if isNaN bb || isNaN ba || le bb 0 || le ba 0 then
        {| tokenId := token; bestBid := bb; bestAsk := ba; midPrice := 0;
           spreadBps := 0; depthTopN := 0;
           bidLevels := length sortedBids; askLevels := length sortedAsks;
           valid := false; error := Some "Invalid prices" |}
      else
        let mid := ((bb + ba) / 2)%float in
        let spread := ((ba - bb) / mid * 10000)%float in
        let depth := sumSizes depthLevels sortedAsks
                       (sumSizes depthLevels sortedBids 0%float) in
        {| tokenId := token; bestBid := bb; bestAsk := ba; midPrice := mid;
           spreadBps := spread; depthTopN := depth;
           bidLevels := length sortedBids; askLevels := length sortedAsks;
           valid := true; error := None |}
  end.

End Calc.
End Metrics.

(** ** Order of a side, and the polling loops of the feed *)

Module PolyOrder.
Import JsNum Env Poly.

(** [x] does not sort after [y]. *)
Definition notAfter (cmp : PolyOrderbookLevel -> PolyOrderbookLevel -> float)
    (x y : PolyOrderbookLevel) : bool := negb (gt (cmp x y) 0).

(** The comparator is consistent on the levels of [l]: never positive both
    ways, and [notAfter] is transitive. *)
Definition consistentOn (cmp : PolyOrderbookLevel -> PolyOrderbookLevel -> float)
    (l : list PolyOrderbookLevel) : bool :=
  forallb (fun x => forallb (fun y =>
    (notAfter cmp x y || notAfter cmp y x)
    && forallb (fun z =>
         implb (notAfter cmp x y && notAfter cmp y z) (notAfter cmp x z)) l) l) l.

(** How often the feed was started, by its log. *)
Definition isStarted (ev : LogEvent) : bool :=
  match ev with poly_feed_started => true | _ => false end.

Definition starts (w : World) : nat :=
  length (List.filter isStarted (log w)).

(** A polling loop is a pending timer or a pending fetch; a start opens
    at most one. *)
Definition loops_counted (w : World) : Prop :=
  (length (timers w) + pendingFetches w <= starts w)%nat.

(** With one start, the only timer that can be pending is [pollTimer]. *)
Definition timer_is_pollTimer (w : World) : Prop :=
  (starts w <= 1)%nat ->
  forall t, In t (timers w) -> pollTimer (feed w) = Some (fst t).

End PolyOrder.

(** ** The logger ([src/infra/logger.ts]) *)

Module Logger.
Local Open Scope nat_scope.

(** [LogLevel] and [LOG_LEVEL_PRIORITY]. *)
Inductive LogLevel := debug | info | warn | error.

Definition LOG_LEVEL_PRIORITY (level : LogLevel) : nat :=
  match level with debug => 0 | info => 1 | warn => 2 | error => 3 end.

(** [shouldLog], with [env.LOG_LEVEL] as [configuredLevel]. *)
Definition shouldLog (configuredLevel level : LogLevel) : bool :=
  LOG_LEVEL_PRIORITY configuredLevel <=? LOG_LEVEL_PRIORITY level.

Section Sink.
Context {E : Type}.

(** Where [logEvent] writes: the lines of [console.log], the lines
    appended to [events.jsonl], and the calls of [console.error] for a
    line that could not be appended. *)
Record Sink := {
  console : list (LogLevel * E);
  file : list (LogLevel * E);
  writeErrors : nat
}.

Definition emptySink : Sink := {| console := []; file := []; writeErrors := 0 |}.

(** One call [logEvent(type, payload, level)]; [appendFails] tells whether
    [appendFileSync] throws on it. *)
Record Entry := { event : E; level : LogLevel; appendFails : bool }.

Variable LOG_LEVEL : LogLevel.
Variable LOG_TO_FILE : bool.

Definition logEvent (s : Sink) (e : Entry) : Sink :=
  if negb (shouldLog LOG_LEVEL (level e)) then s
  else
    let s1 := {| console := console s ++ [(level e, event e)];
                 file := file s; writeErrors := writeErrors s |} in
    if LOG_TO_FILE then
      if appendFails e then
        {| console := console s1; file := file s1;
           writeErrors := S (writeErrors s1) |}
      else
        {| console := console s1; file := file s1 ++ [(level e, event e)];
           writeErrors := writeErrors s1 |}
    else s1.

Definition logAll (entries : list Entry) : Sink :=
  fold_left logEvent entries emptySink.

(** The line of an entry; whether it passes the threshold, is appended to
    the file, fails to be appended. *)
Definition line (e : Entry) : LogLevel * E := (level e, event e).

Definition passes (e : Entry) : bool := shouldLog LOG_LEVEL (level e).

Definition appended (e : Entry) : bool :=
  passes e && LOG_TO_FILE && negb (appendFails e).

Definition failed (e : Entry) : bool :=
  passes e && LOG_TO_FILE && appendFails e.

End Sink.

Arguments Sink : clear implicits.
Arguments Entry : clear implicits.

(** The level each event of the signal engine is logged at. *)
Definition arbLevel (ev : Strategy.LogEvent) : LogLevel :=
  match ev with
  | Strategy.arb_discard _ _ => debug
  | Strategy.arb_signal _ => warn
  | Strategy.arb_poly_update _ _ _ => debug
  end.

(** What the logger lets through of a component's log. *)
Definition emitted {E} (levelOf : E -> LogLevel) (LOG_LEVEL : LogLevel)
    (log : list E) : list E :=
  List.filter (fun ev => shouldLog LOG_LEVEL (levelOf ev)) log.

End Logger.

(** ** The market picker's batches ([processBatch]) *)

Module Picker.
Local Open Scope Z_scope.

(** [Array.prototype.slice(start, end)]. *)
Definition slice {T} (items : list T) (start end_ : Z) : list T :=
  let len := Z.of_nat (length items) in
  let k := if start <? 0 then Z.max (len + start) 0 else Z.min start len in
  let final := if end_ <? 0 then Z.max (len + end_) 0 else Z.min end_ len in
  take (Z.to_nat (final - k)) (drop (Z.to_nat k) items).

(** [processBatch]: the [for] loop from index [i] on; [processor] gives
    what each item's promise resolves to, and [Promise.all] keeps the
    order of the batch.  [None]: the fuel ran out before the loop ended. *)
Fixpoint processBatch_from {T R} (fuel : nat) (items : list T)
    (processor : T -> R) (concurrency : Z) (i : Z) (results : list R)
  : option (list R) :=
  match fuel with
  | O => None
  | S fuel' =>
      if i <? Z.of_nat (length items) then
        let batch := slice items i (i + concurrency) in
        let batchResults := map processor batch in
        processBatch_from fuel' items processor concurrency (i + concurrency)
                          (results ++ batchResults)
      else Some results
  end.

Definition processBatch {T R} (fuel : nat) (items : list T)
    (processor : T -> R) (concurrency : Z) : option (list R) :=
  processBatch_from fuel items processor concurrency 0 [].

End Picker.

(** ** Facts about binary64 comparisons *)

Module FloatFacts.

Lemma SFcompare_Lt_swap (a b : spec_float) :
  SFcompare a b = Some Lt -> SFcompare b a = Some Gt.
Proof.
  destruct a as [sa|sa| |sa ma ea], b as [sb|sb| |sb mb eb]; simpl;
    try discriminate; try (destruct sa; discriminate);
    try (destruct sb; discriminate);
    try (destruct sa, sb; (discriminate || reflexivity)).
  destruct sa, sb; try discriminate; try reflexivity.
  - rewrite (Z.compare_antisym ea eb).
    destruct (ea ?= eb)%Z; simpl; try discriminate; try reflexivity.
    change (Pos.compare_cont Eq mb ma) with (Pos.compare mb ma).
    change (Pos.compare_cont Eq ma mb) with (Pos.compare ma mb).
    rewrite (Pos.compare_antisym ma mb).
    destruct (ma ?= mb)%positive; simpl; (discriminate || reflexivity).
  - rewrite (Z.compare_antisym ea eb).
    destruct (ea ?= eb)%Z; simpl; try discriminate; try reflexivity.
    change (Pos.compare_cont Eq mb ma) with (Pos.compare mb ma).
    change (Pos.compare_cont Eq ma mb) with (Pos.compare ma mb).
    rewrite (Pos.compare_antisym ma mb).
    destruct (ma ?= mb)%positive; simpl; (discriminate || reflexivity).
Qed.

Lemma ltb_true_leb_false (a b : float) :
  (a <? b)%float = true -> (b <=? a)%float = false.
Proof.
  rewrite ltb_spec, leb_spec. unfold SFltb, SFleb.
  destruct (SFcompare (Prim2SF a) (Prim2SF b)) as [[ | | ]|] eqn:E;
    try discriminate.
  intros _. now rewrite (SFcompare_Lt_swap _ _ E).
Qed.

End FloatFacts.

(** ** The signal engine: proofs *)

Module StrategyProofs.
Import JsNum Env Strategy.
Local Open Scope Z_scope.

Section Engine.
Variable cfg : env.

Lemma getLatest_last (st : State) :
  getLatestPolySnapshot st = last (polySnapshots st).
Proof.
  unfold getLatestPolySnapshot. rewrite last_lookup.
  destruct (polySnapshots st) as [|s l]; simpl; [reflexivity|].
  now rewrite Nat.sub_0_r.
Qed.

Lemma calculatePolyMovement_spec (st : State) :
  calculatePolyMovement st = spec_polyMoveBps (polySnapshots st).
Proof.
  unfold calculatePolyMovement, spec_polyMoveBps.
  rewrite (last_lookup (polySnapshots st)).
  destruct (polySnapshots st) as [|a [|b l]]; simpl; reflexivity.
Qed.

Lemma latest_nil_iff (l : list PolySnapshot) : last l = None <-> l = [].
Proof. apply last_None. Qed.

Lemma processSpotMove_ending now st symbol price moveBps direction :
  ending cfg now st moveBps
    (fst (processSpotMove cfg now st symbol price moveBps direction))
    (snd (processSpotMove cfg now st symbol price moveBps direction)).
Proof.
  unfold processSpotMove. rewrite getLatest_last.
  destruct (last (polySnapshots st)) as [latest|] eqn:Hl.
  2:{ apply end_no_snapshot. now apply last_None. }
  unfold gt, lt, logDiscard, emitSignal.
  destruct (ARB_MAX_POLY_SPREAD_BPS cfg <? spreadBps latest)%float eqn:Hs.
  { eapply end_wide_spread; [eassumption|]. simpl. now rewrite Hl. }
  destruct (depthTopN latest <? ARB_MIN_POLY_DEPTH cfg)%float eqn:Hd.
  { eapply end_low_depth; [eassumption| |]; simpl; now rewrite Hl. }
  destruct (now - lastSignalTime st <? ARB_COOLDOWN_MS cfg) eqn:Hc.
  { eapply end_cooldown; [eassumption| | |]; simpl; rewrite ?Hl; assumption. }
  rewrite calculatePolyMovement_spec. unfold Math_abs.
  fold (spec_edgeBps (polySnapshots st) moveBps).
  destruct (spec_edgeBps (polySnapshots st) moveBps <? ARB_MIN_EDGE_BPS cfg)%float eqn:He.
  { eapply end_insufficient_edge; [eassumption| | | | |];
      simpl; rewrite ?Hl; try assumption. reflexivity. }
  eapply end_signal; [eassumption| | | | | |]; simpl; rewrite ?Hl;
    try assumption; reflexivity.
Qed.


(** Case analysis on the way a call ends: [H0] for the empty history,
    else [Hl] for the latest snapshot, [H1] to [H4] for the gates that
    were evaluated, [He] for the edge that was reported. *)
Ltac by_ending now st symbol price moveBps direction :=
  destruct (processSpotMove_ending now st symbol price moveBps direction)
    as [data H0|latest data Hl H1|latest data Hl H1 H2
        |latest data Hl H1 H2 H3|latest data Hl H1 H2 H3 H4 He
        |latest s Hl H1 H2 H3 H4 He _].

Lemma last_some_not_nil (l : list PolySnapshot) latest :
  last l = Some latest -> bool_decide (l = []) = false.
Proof.
  intros H. apply bool_decide_eq_false. intros ->. discriminate.
Qed.

Lemma outcomes_find now st symbol price moveBps direction :
  outcomes (snd (processSpotMove cfg now st symbol price moveBps direction))
    = [List.find (gate_fails cfg now st moveBps) gate_order].
Proof.
  by_ending now st symbol price moveBps direction;
    unfold gate_order, List.find; cbn [outcomes flat_map outcome_of app];
    change (gate_fails cfg now st moveBps no_poly_snapshot)
      with (bool_decide (polySnapshots st = []));
    [ rewrite H0; reflexivity | rewrite (last_some_not_nil _ _ Hl) .. ].
  - rewrite H1. reflexivity.
  - rewrite H1, H2. reflexivity.
  - rewrite H1, H2, H3. reflexivity.
  - rewrite H1, H2, H3, H4. reflexivity.
  - rewrite H1, H2, H3, H4. reflexivity.
Qed.

(** C1 (gate order, one outcome per call).  What a call of
    [processSpotMove] logs is exactly one outcome: the discard reason of the
    first gate, in the order no_poly_snapshot, wide_spread, low_depth,
    cooldown, insufficient_edge, that fails on the state before the call, or
    a signal when no gate fails; the log holds that one event and no other.
    On an empty history the call is a [no_poly_snapshot] discard that leaves
    the state alone, whatever the settings, the clock, [lastSignalTime] and
    the move are. *)
Theorem processSpotMove_first_failing_gate
    now st symbol price moveBps direction t :
  outcomes (snd (processSpotMove cfg now st symbol price moveBps direction))
    = [List.find (gate_fails cfg now st moveBps) gate_order]
  /\ length (snd (processSpotMove cfg now st symbol price moveBps direction)) = 1%nat
  /\ processSpotMove cfg now {| polySnapshots := []; lastSignalTime := t |}
        symbol price moveBps direction
      = ({| polySnapshots := []; lastSignalTime := t |},
         [arb_discard no_poly_snapshot
            [("spotSymbol", JStr symbol); ("spotPrice", JNum price);
             ("spotMoveBps", JNum moveBps); ("spotDirection", JDir direction)]]).
Proof.
  split; [apply outcomes_find|split; [|reflexivity]].
  - destruct (processSpotMove_ending now st symbol price moveBps direction);
      reflexivity.
Qed.


(** C6 (edge).  [calculatePolyMovement] is the specification's counterpart
    movement: 0 under two snapshots, else
    ((latest.midPrice / oldest.midPrice) - 1) * 10000 over the first and the
    last entry of the history.  When the first four gates pass, the call
    logs one event, which reports edgeBps = |moveBps| - |polyMoveBps|, and
    that edge against [ARB_MIN_EDGE_BPS] decides between
    [insufficient_edge] and a signal. *)
Theorem edge_is_move_minus_poly_move now st symbol price moveBps direction :
  calculatePolyMovement st = spec_polyMoveBps (polySnapshots st)
  /\ ((length (polySnapshots st) < 2)%nat -> calculatePolyMovement st = 0%float)
  /\ (forall oldest latest,
        head (polySnapshots st) = Some oldest ->
        last (polySnapshots st) = Some latest ->
        (2 <= length (polySnapshots st))%nat ->
        calculatePolyMovement st
          = ((midPrice latest / midPrice oldest - 1) * 10000)%float)
  /\ (List.find (gate_fails cfg now st moveBps)
        [no_poly_snapshot; wide_spread; low_depth; cooldown] = None ->
      exists ev,
        snd (processSpotMove cfg now st symbol price moveBps direction) = [ev]
        /\ reported_edge ev
           = Some (PrimFloat.abs moveBps - PrimFloat.abs (calculatePolyMovement st))%float
        /\ outcome_of ev
           = [if ((PrimFloat.abs moveBps
                    - PrimFloat.abs (calculatePolyMovement st))
                  <? ARB_MIN_EDGE_BPS cfg)%float
              then Some insufficient_edge else None]).
Proof.
  split; [apply calculatePolyMovement_spec|]. split; [|split].
  - intros Hlen. unfold calculatePolyMovement.
    apply Nat.ltb_lt in Hlen. now rewrite Hlen.
  - intros oldest latest Ho Hl Hlen. rewrite calculatePolyMovement_spec.
    unfold spec_polyMoveBps. rewrite Ho, Hl.
    apply Nat.leb_le in Hlen. now rewrite Hlen.
  - rewrite calculatePolyMovement_spec.
    fold (spec_edgeBps (polySnapshots st) moveBps).
    change ((spec_edgeBps (polySnapshots st) moveBps <? ARB_MIN_EDGE_BPS cfg)%float)
      with (gate_fails cfg now st moveBps insufficient_edge).
    unfold List.find. intros Hpass.
    by_ending now st symbol price moveBps direction.
    + cbn [gate_fails] in Hpass. rewrite H0 in Hpass. discriminate.
    + destruct (gate_fails cfg now st moveBps no_poly_snapshot);
        [discriminate|]. rewrite H1 in Hpass. discriminate.
    + destruct (gate_fails cfg now st moveBps no_poly_snapshot);
        [discriminate|]. rewrite H1, H2 in Hpass. discriminate.
    + destruct (gate_fails cfg now st moveBps no_poly_snapshot);
        [discriminate|]. rewrite H1, H2, H3 in Hpass. discriminate.
    + eexists. split; [reflexivity|]. split; [exact He|].
      rewrite H4. reflexivity.
    + eexists. split; [reflexivity|]. split; [simpl; now rewrite He|].
      rewrite H4. reflexivity.
Qed.



(** C10 (frame).  [processSpotMove] never changes the snapshot history.
    It either emits a signal and sets [lastSignalTime] to [now], or
    discards and returns the state it was given; with a positive cooldown
    (the schema's [positive()]) the value of [lastSignalTime] changes if and
    only if a signal was emitted.  [updatePolySnapshot] is the operation
    that appends to the history and prunes it, and it leaves
    [lastSignalTime] alone. *)
Theorem processSpotMove_frame now st symbol price moveBps direction now' snapshot :
  0 < ARB_COOLDOWN_MS cfg ->
  let r := processSpotMove cfg now st symbol price moveBps direction in
  let u := updatePolySnapshot now' st snapshot in
  polySnapshots (fst r) = polySnapshots st
  /\ (outcomes (snd r) = [None] /\ lastSignalTime (fst r) = now
      \/ (exists reason, outcomes (snd r) = [Some reason]) /\ fst r = st)
  /\ (lastSignalTime (fst r) <> lastSignalTime st <-> outcomes (snd r) = [None])
  /\ polySnapshots (fst u)
     = List.filter (fun s => now' - 60000 <=? timestamp s)
                   (polySnapshots st ++ [snapshot])
  /\ lastSignalTime (fst u) = lastSignalTime st.
Proof.
  intros Hcd r u. subst r u.
  by_ending now st symbol price moveBps direction;
    (split; [reflexivity|]); (split; [|split; [|split; reflexivity]]);
    try (right; split; [eexists; reflexivity|reflexivity]);
    try (split; [intros Hne; now contradict Hne|discriminate]).
  - left. split; reflexivity.
  - split; [reflexivity|]. intros _. cbn [lastSignalTime].
    cbn [gate_fails] in H3. apply Z.ltb_ge in H3. lia.
Qed.

End Engine.

Lemma edge_is_move_minus_poly_move_witness :
  exists ev,
    snd (processSpotMove cfg0 1700000000000 st_one "BTCUSDT" 65000 60 up) = [ev]
    /\ reported_edge ev = Some 60%float.
Proof.
  destruct (edge_is_move_minus_poly_move cfg0 1700000000000 st_one
              "BTCUSDT" 65000 60 up) as (_ & _ & _ & H).
  destruct (H eq_refl) as (ev & Hev & He & _).
  exists ev. split; [exact Hev|]. rewrite He. reflexivity.
Defined.


Lemma processSpotMove_frame_witness :
  polySnapshots (fst (processSpotMove cfg0 1700000000000 st_one
                        "BTCUSDT" 65000 60 up)) = polySnapshots st_one
  /\ lastSignalTime (fst (processSpotMove cfg0 1700000000000 st_one
                            "BTCUSDT" 65000 60 up)) = 1700000000000.
Proof.
  destruct (processSpotMove_frame cfg0 1700000000000 st_one "BTCUSDT" 65000 60 up
              0 (snap 0.5 40 100 1000) ltac:(simpl; lia))
    as (H1 & [[_ H2]|[[reason Hr] _]] & _).
  - split; [exact H1|exact H2].
  - discriminate Hr.
Defined.

End StrategyProofs.

(** ** The streaming feed: proofs *)

Module SpotProofs.
Import JsNum Env Spot.
Local Open Scope Z_scope.

(** Shifting only drops a prefix of the buffer. *)
Lemma shiftOld_suffix cutoff (buffer : list SpotTick) :
  shiftOld cutoff buffer `suffix_of` buffer.
Proof.
  induction buffer as [|t rest IH]; simpl; [done|].
  destruct (tsLocal t <? cutoff); [|done].
  now apply suffix_cons_r.
Qed.

(** After shifting, the head is not older than the cutoff. *)
Lemma shiftOld_head cutoff (buffer : list SpotTick) t :
  head (shiftOld cutoff buffer) = Some t -> cutoff <= tsLocal t.
Proof.
  induction buffer as [|a rest IH]; simpl; [discriminate|].
  destruct (tsLocal a <? cutoff) eqn:E; [exact IH|].
  simpl. intros [= <-]. now apply Z.ltb_ge.
Qed.

(** A tick that is not older than the cutoff, pushed last, stays last. *)
Lemma shiftOld_snoc_last cutoff (buffer : list SpotTick) t :
  cutoff <= tsLocal t -> last (shiftOld cutoff (buffer ++ [t])) = Some t.
Proof.
  intros Ht. induction buffer as [|a rest IH]; simpl.
  - apply Z.ltb_ge in Ht. now rewrite Ht.
  - destruct (tsLocal a <? cutoff); [exact IH|].
    change (a :: rest ++ [t]) with ((a :: rest) ++ [t]). apply last_snoc.
Qed.

Lemma sorted_suffix (l1 l2 : list SpotTick) :
  l1 `suffix_of` l2 -> StronglySorted older l2 -> StronglySorted older l1.
Proof.
  intros [k ->]. induction k as [|a k IH]; simpl; [done|].
  intros H. apply IH. now inversion H.
Qed.

Lemma sorted_snoc (l : list SpotTick) t :
  StronglySorted older l -> Forall (fun a => older a t) l ->
  StronglySorted older (l ++ [t]).
Proof.
  induction l as [|a l IH]; simpl; intros Hs Hf.
  - repeat constructor.
  - inversion Hs; subst. inversion Hf; subst. constructor; [now apply IH|].
    apply Forall_app. split; [assumption|]. now repeat constructor.
Qed.

Lemma sorted_head_bound (l : list SpotTick) c :
  StronglySorted older l ->
  (forall t, head l = Some t -> c <= tsLocal t) ->
  Forall (fun a => c <= tsLocal a) l.
Proof.
  destruct l as [|a l]; intros Hs Hh; [constructor|].
  inversion Hs as [|? ? _ Hall]; subst.
  specialize (Hh a eq_refl). constructor; [assumption|].
  eapply Forall_impl; [exact Hall|]. unfold older. simpl. intros. lia.
Qed.

Section Feed.
Variable cfg : env.

Lemma fst_processTick st tick :
  fst (processTick cfg st tick) = updateBuffers cfg st tick.
Proof.
  unfold processTick.
  destruct (windowReturn (updateBuffers cfg st tick) tick) as [r|];
    [destruct (moveGate cfg r)|]; reflexivity.
Qed.

Lemma run_snoc st ticks t :
  run cfg st (ticks ++ [t]) = updateBuffers cfg (run cfg st ticks) t.
Proof. unfold run. rewrite fold_left_app. simpl. apply fst_processTick. Qed.

(** The window of [sym] across the first half of [processTick]. *)
Lemma window_updateBuffers st tick sym :
  window (updateBuffers cfg st tick) sym
  = if shouldSample cfg st tick && bool_decide (symbol tick = sym)
    then shiftOld (tsLocal tick - SPOT_RETURN_WINDOW_MS cfg)
                  (window st sym ++ [tick])
    else window st sym.
Proof.
  unfold updateBuffers.
  change (shouldSample cfg _ tick) with (shouldSample cfg st tick).
  destruct (shouldSample cfg st tick); simpl; [|reflexivity].
  unfold window. simpl. case_bool_decide as Hs.
  - subst sym. now rewrite lookup_insert_eq.
  - now rewrite lookup_insert_ne.
Qed.

Lemma lastSample_updateBuffers st tick sym :
  lastSampleTime (updateBuffers cfg st tick) !! sym
  = if shouldSample cfg st tick && bool_decide (symbol tick = sym)
    then Some (tsLocal tick)
    else lastSampleTime st !! sym.
Proof.
  unfold updateBuffers.
  change (shouldSample cfg _ tick) with (shouldSample cfg st tick).
  destruct (shouldSample cfg st tick); simpl; [|reflexivity].
  case_bool_decide as Hs.
  - subst sym. now rewrite lookup_insert_eq.
  - now rewrite lookup_insert_ne.
Qed.

Lemma window_ok_init sym : window_ok cfg init sym.
Proof.
  split; unfold window, init; simpl; rewrite ?lookup_empty; simpl;
    try constructor; try done.
Qed.

Lemma window_ok_step st tick sym :
  0 < SPOT_BUFFER_SAMPLE_MS cfg ->
  window_ok cfg st sym -> window_ok cfg (updateBuffers cfg st tick) sym.
Proof.
  intros Hpos [Hs Hle Hfresh Hres].
  pose proof (window_updateBuffers st tick sym) as Hw.
  pose proof (lastSample_updateBuffers st tick sym) as Hl.
  destruct (shouldSample cfg st tick && bool_decide (symbol tick = sym)) eqn:E.
  2:{ split; rewrite ?Hw, ?Hl; assumption. }
  apply andb_true_iff in E as [Hsample Hsym].
  apply bool_decide_eq_true in Hsym. subst sym.
  unfold shouldSample in Hsample. apply Z.leb_le in Hsample.
  assert (Hpushed : StronglySorted older (window st (symbol tick) ++ [tick])).
  { apply sorted_snoc; [assumption|].
    eapply Forall_impl; [exact Hle|]. unfold older. simpl. intros. lia. }
  pose proof (shiftOld_suffix (tsLocal tick - SPOT_RETURN_WINDOW_MS cfg)
                (window st (symbol tick) ++ [tick])) as Hsuf.
  assert (Hkept : StronglySorted older
            (shiftOld (tsLocal tick - SPOT_RETURN_WINDOW_MS cfg)
                      (window st (symbol tick) ++ [tick])))
    by (eapply sorted_suffix; eassumption).
  split; rewrite Hw, ?Hl.
  - exact Hkept.
  - simpl. apply Forall_forall. intros a Ha.
    apply (elem_of_suffix _ _ _ Ha) in Hsuf.
    apply elem_of_app in Hsuf as [Hin|Hin].
    + rewrite Forall_forall in Hle. specialize (Hle a Hin). lia.
    + apply list_elem_of_singleton in Hin. subst a. lia.
  - discriminate.
  - intros ts [= <-]. apply sorted_head_bound; [exact Hkept|].
    apply shiftOld_head.
Qed.

Lemma window_ok_run ticks sym :
  0 < SPOT_BUFFER_SAMPLE_MS cfg -> window_ok cfg (run cfg init ticks) sym.
Proof.
  intros Hpos. induction ticks as [|t ticks IH] using rev_ind.
  - apply window_ok_init.
  - rewrite run_snoc. now apply window_ok_step.
Qed.

Lemma window_sublist_run ticks sym :
  window (run cfg init ticks) sym `sublist_of` ticks.
Proof.
  induction ticks as [|t ticks IH] using rev_ind.
  - unfold window, run, init. simpl. now rewrite lookup_empty.
  - rewrite run_snoc, window_updateBuffers.
    destruct (shouldSample cfg _ t && bool_decide (symbol t = sym)).
    + destruct (shiftOld_suffix (tsLocal t - SPOT_RETURN_WINDOW_MS cfg)
                  (window (run cfg init ticks) sym ++ [t])) as [k Hk].
      transitivity (window (run cfg init ticks) sym ++ [t]).
      * set (kept := shiftOld _ _) in *. rewrite Hk.
        apply sublist_inserts_l. reflexivity.
      * apply sublist_app; [exact IH|reflexivity].
    + now apply sublist_inserts_r.
Qed.

(** C8 (window).  With a positive sampling interval (the schema's
    [positive()]), after any sequence of ticks processed from the initial
    feed, for every symbol: each resident tick of its window has a local
    time of at least [now - returnWindowMs], [now] being the local time of
    the tick that caused the last prune of that window; one more tick
    either leaves the window as it was or, sampled, leaves a suffix of the
    window with the tick pushed (ticks go from the oldest end only), all of
    whose residents are within [returnWindowMs] of that tick; the residents
    are a subsequence of the ticks in arrival order, with strictly
    increasing local times. *)
Theorem window_pruned_from_oldest_end ticks tick sym :
  0 < SPOT_BUFFER_SAMPLE_MS cfg ->
  let st := run cfg init ticks in
  let st' := fst (processTick cfg st tick) in
  (forall now, lastSampleTime st !! sym = Some now ->
     Forall (fun t => now - SPOT_RETURN_WINDOW_MS cfg <= tsLocal t) (window st sym))
  /\ (window st' sym = window st sym
      \/ symbol tick = sym
         /\ window st' sym `suffix_of` window st sym ++ [tick]
         /\ Forall (fun t => tsLocal tick - SPOT_RETURN_WINDOW_MS cfg <= tsLocal t)
                   (window st' sym))
  /\ window st sym `sublist_of` ticks
  /\ StronglySorted (fun a b => tsLocal a < tsLocal b) (window st sym).
Proof.
  intros Hpos st st'. subst st st'.
  pose proof (window_ok_run ticks sym Hpos) as Hok.
  split; [exact (ok_resident _ _ _ Hok)|].
  split; [|split; [apply window_sublist_run|exact (ok_sorted _ _ _ Hok)]].
  rewrite fst_processTick.
  pose proof (window_ok_step _ tick sym Hpos Hok) as Hok'.
  pose proof (ok_resident _ _ _ Hok') as Hres.
  rewrite lastSample_updateBuffers in Hres.
  rewrite window_updateBuffers in *.
  destruct (shouldSample cfg _ tick && bool_decide (symbol tick = sym)) eqn:E;
    [right|now left].
  apply andb_true_iff in E as [_ Hsym]. apply bool_decide_eq_true in Hsym.
  split; [exact Hsym|]. split; [apply shiftOld_suffix|].
  now apply Hres.
Qed.


Lemma processTick_moves st tick :
  moves (snd (processTick cfg st tick))
  = match windowReturn (updateBuffers cfg st tick) tick with
    | Some r => if moveGate cfg r then [r] else []
    | None => []
    end.
Proof.
  unfold processTick.
  destruct (windowReturn (updateBuffers cfg st tick) tick) as [r|];
    [destruct (moveGate cfg r)|]; reflexivity.
Qed.

(** C2 (move gating).  A [spot.move] event of [processTick] carries the
    return computed for that tick, and that return has
    windowMs >= 0.8 * returnWindowMs and |returnBps| >= moveThresholdBps,
    both as the program compares them.  A return whose windowMs is less
    than 0.8 * returnWindowMs produces no move event, whatever its
    returnBps. *)
Theorem move_needs_filled_window_and_threshold st tick r :
  let minWindowMs := (Z2float (SPOT_RETURN_WINDOW_MS cfg) * lit_0_8)%float in
  (In r (moves (snd (processTick cfg st tick))) ->
     windowReturn (updateBuffers cfg st tick) tick = Some r
     /\ ge (Z2float (windowMs r)) minWindowMs = true
     /\ ge (PrimFloat.abs (returnBps r)) (SPOT_MOVE_THRESHOLD_BPS cfg) = true)
  /\ (windowReturn (updateBuffers cfg st tick) tick = Some r ->
      lt (Z2float (windowMs r)) minWindowMs = true ->
      moves (snd (processTick cfg st tick)) = []).
Proof.
  intros minWindowMs. rewrite processTick_moves. split.
  - destruct (windowReturn (updateBuffers cfg st tick) tick) as [r'|];
      [|intros []].
    destruct (moveGate cfg r') eqn:G; [|intros []].
    intros [->|[]]. split; [reflexivity|].
    unfold moveGate in G. now apply andb_true_iff in G.
  - intros -> Hlt. unfold moveGate. fold minWindowMs.
    unfold lt in Hlt. unfold ge at 1.
    now rewrite (FloatFacts.ltb_true_leb_false _ _ Hlt).
Qed.

(** C3, as the program has it.  After the downsampling step of
    [processTick], the return is computed exactly when the symbol's window
    holds two ticks or more, between the incoming tick and the oldest
    resident tick.  The incoming tick is the newest resident when it was
    sampled (with a window length that is not negative); when it was not,
    the window is as it was.  [calculateReturn] gives
    returnBps = ((current/past) - 1) * 10000, direction up when
    returnBps > 0 and down otherwise, and windowMs the difference of the
    two local times; for 110 at [t1] over 100 at [t0] that is
    1000.0000000000009 (the binary64 result, within 2^-39 of 1000), up,
    and [t1 - t0]. *)
Theorem return_of_incoming_tick_over_oldest st tick cur past t0 t1 :
  0 <= SPOT_RETURN_WINDOW_MS cfg ->
  let st' := updateBuffers cfg st tick in
  let r := calculateReturn cur past in
  let e := calculateReturn (Spot.tick 110 t1) (Spot.tick 100 t0) in
  windowReturn st' tick
    = match window st' (symbol tick) with
      | oldest :: _ :: _ => Some (calculateReturn tick oldest)
      | _ => None
      end
  /\ (shouldSample cfg st tick = true ->
      last (window st' (symbol tick)) = Some tick)
  /\ (shouldSample cfg st tick = false ->
      window st' (symbol tick) = window st (symbol tick))
  /\ returnBps r = ((price cur / price past - 1) * 10000)%float
  /\ direction r = (if (0 <? returnBps r)%float then up else down)
  /\ windowMs r = tsLocal cur - tsLocal past
  /\ returnBps e = 0x1.f400000000008p+9%float
  /\ (PrimFloat.abs (returnBps e - 1000) <? 0x1p-39)%float = true
  /\ direction e = up
  /\ windowMs e = t1 - t0.
Proof.
  intros HW st' r e. subst st' r e.
  split.
  { unfold windowReturn, window.
    destruct (priceBuffer (updateBuffers cfg st tick) !! symbol tick)
      as [[|a [|b l]]|]; reflexivity. }
  split.
  { intros Hs. rewrite window_updateBuffers, Hs.
    rewrite bool_decide_eq_true_2 by reflexivity. simpl.
    apply shiftOld_snoc_last. lia. }
  split.
  { intros Hs. now rewrite window_updateBuffers, Hs. }
  repeat split; vm_compute; reflexivity.
Qed.

End Feed.

(** C3, as the specification words it, fails: a tick that the downsampling
    leaves out of the window still drives the return. *)
Lemma return_not_between_residents :
  let st := run cfg1 init [tick 100 1000; tick 100 1900] in
  let incoming := tick 110 2000 in
  let st' := fst (processTick cfg1 st incoming) in
  shouldSample cfg1 st incoming = false
  /\ window st' "BTCUSDT" = [tick 100 1000; tick 100 1900]
  /\ moves (snd (processTick cfg1 st incoming))
     = [calculateReturn incoming (tick 100 1000)]
  /\ spec_windowReturn st' "BTCUSDT"
     = Some (calculateReturn (tick 100 1900) (tick 100 1000))
  /\ windowMs (calculateReturn incoming (tick 100 1000)) = 1000
  /\ windowMs (calculateReturn (tick 100 1900) (tick 100 1000)) = 900
  /\ windowReturn st' incoming <> spec_windowReturn st' "BTCUSDT"
  /\ (returnBps (calculateReturn incoming (tick 100 1000)) =? 1000)%float = false
  /\ (returnBps (calculateReturn (tick 100 1900) (tick 100 1000)) =? 0)%float = true
  /\ direction (calculateReturn (tick 100 1900) (tick 100 1000)) = down.
Proof.
  vm_compute. repeat split. discriminate.
Qed.

Lemma move_needs_filled_window_and_threshold_witness :
  ge (Z2float 1000) (Z2float 1000 * lit_0_8)%float = true
  /\ moves (snd (processTick cfg1
               (run cfg1 init [tick 100 1000; tick 100 1300]) (tick 110 1400)))
     = [].
Proof.
  pose (st := run cfg1 init [tick 100 1000; tick 100 1900]).
  pose (st2 := run cfg1 init [tick 100 1000; tick 100 1300]).
  split.
  - destruct (move_needs_filled_window_and_threshold cfg1 st (tick 110 2000)
                (calculateReturn (tick 110 2000) (tick 100 1000))) as [H _].
    destruct H as (_ & H & _); [vm_compute; left; reflexivity|exact H].
  - destruct (move_needs_filled_window_and_threshold cfg1 st2 (tick 110 1400)
                (calculateReturn (tick 110 1400) (tick 100 1000))) as [_ H].
    apply H; vm_compute; reflexivity.
Defined.

Lemma return_of_incoming_tick_over_oldest_witness :
  last (window (updateBuffers cfg1 init (tick 100 1000)) "BTCUSDT")
  = Some (tick 100 1000).
Proof.
  destruct (return_of_incoming_tick_over_oldest cfg1 init (tick 100 1000)
              (tick 110 2000) (tick 100 1000) 1000 2000
              ltac:(vm_compute; discriminate)) as (_ & H & _).
  apply H. vm_compute. reflexivity.
Defined.

Lemma window_pruned_from_oldest_end_witness :
  window (run cfg1 init [tick 100 1000; tick 100 1900; tick 101 2300]) "BTCUSDT"
    `sublist_of` [tick 100 1000; tick 100 1900; tick 101 2300]
  /\ Forall (fun t => 2300 - 1000 <= tsLocal t)
       (window (run cfg1 init [tick 100 1000; tick 100 1900; tick 101 2300])
               "BTCUSDT").
Proof.
  destruct (window_pruned_from_oldest_end cfg1
              [tick 100 1000; tick 100 1900; tick 101 2300] (tick 102 2400)
              "BTCUSDT" ltac:(vm_compute; reflexivity)) as (H1 & _ & H2 & _).
  split; [exact H2|]. apply H1. vm_compute. reflexivity.
Defined.

End SpotProofs.

(** ** The polling feed: proofs *)

Module PolyProofs.
Import JsNum Env Poly.
Local Open Scope Z_scope.

Section Feed.
Variable cfg : env.
Variable parseFloat : string -> float.

Local Abbreviation handlePollError := (handlePollError cfg).
Local Abbreviation schedulePoll := (schedulePoll cfg).
Local Abbreviation start := (start cfg).
Local Abbreviation normalizeOrderbook := (normalizeOrderbook cfg parseFloat).
Local Abbreviation poll_resume := (poll_resume cfg parseFloat).
Local Abbreviation timerFires := (timerFires cfg).
Local Abbreviation fetchSettles := (fetchSettles cfg parseFloat).
Local Abbreviation step := (step cfg parseFloat).
Local Abbreviation reachable := (reachable cfg parseFloat).

(** *** Sorting keeps a book's side non-empty *)

Lemma insertBy_cons cmp x l : exists y l', insertBy cmp x l = y :: l'.
Proof. destruct l as [|y l]; simpl; [|destruct (gt _ _)]; eauto. Qed.

Lemma sortBy_cons cmp x l : exists y l', sortBy cmp (x :: l) = y :: l'.
Proof. unfold sortBy. simpl. apply insertBy_cons. Qed.

Lemma sortBy_head_nil cmp l : head (sortBy cmp l) = None <-> l = [].
Proof.
  destruct l as [|x l]; [done|].
  destruct (sortBy_cons cmp x l) as (y & l' & ->). done.
Qed.

(** *** What the logger and the timers leave alone *)

Lemma logEvents_feed evs w :
  feed (fold_left (fun acc ev => logEvent ev acc) evs w) = feed w
  /\ pendingFetches (fold_left (fun acc ev => logEvent ev acc) evs w)
     = pendingFetches w.
Proof.
  revert w. induction evs as [|e evs IH]; intros w; [done|].
  simpl. destruct (IH (logEvent e w)) as [-> ->]. done.
Qed.

Lemma handlePollError_feed w :
  feed (handlePollError w)
  = {| pollTimer := pollTimer (feed w); inFlight := inFlight (feed w);
       isRunning := isRunning (feed w);
       consecutiveErrors := S (consecutiveErrors (feed w));
       currentBackoffMs :=
         Z.min (baseIntervalMs cfg * 2 ^ (Z.of_nat (S (consecutiveErrors (feed w))) - 1))
               maxBackoffMs |}
  /\ pendingFetches (handlePollError w) = pendingFetches w
  /\ timers (handlePollError w) = timers w.
Proof.
  unfold Poly.handlePollError.
  destruct (1 <? S (consecutiveErrors (feed w)))%nat; done.
Qed.

Lemma schedulePoll_frame w :
  inFlight (feed (schedulePoll w)) = inFlight (feed w)
  /\ pendingFetches (schedulePoll w) = pendingFetches w
  /\ consecutiveErrors (feed (schedulePoll w)) = consecutiveErrors (feed w)
  /\ currentBackoffMs (feed (schedulePoll w)) = currentBackoffMs (feed w)
  /\ log (schedulePoll w) = log w.
Proof. unfold Poly.schedulePoll. destruct (isRunning (feed w)); done. Qed.

Lemma start_frame w :
  inFlight (feed (start w)) = inFlight (feed w)
  /\ pendingFetches (start w) = pendingFetches w.
Proof.
  unfold Poly.start. destruct (isRunning (feed w)); [done|].
  destruct (schedulePoll_frame
    (logEvent poly_feed_started
       (withFeed {| pollTimer := pollTimer (feed w); inFlight := inFlight (feed w);
                    isRunning := true; consecutiveErrors := 0;
                    currentBackoffMs := 0 |} w))) as (-> & -> & _). done.
Qed.

Lemma stop_frame w :
  inFlight (feed (stop w)) = inFlight (feed w)
  /\ pendingFetches (stop w) = pendingFetches w.
Proof. unfold stop. destruct (pollTimer (feed w)); done. Qed.

Lemma poll_resume_frame now r w :
  inFlight (feed (poll_resume now r w)) = false
  /\ pendingFetches (poll_resume now r w) = pendingFetches w.
Proof.
  unfold Poly.poll_resume. split; [reflexivity|]. simpl.
  destruct r as [[ob|]|]; try apply handlePollError_feed.
  destruct (normalizeOrderbook now ob) as [[md|] lg]; simpl.
  - apply logEvents_feed.
  - rewrite (proj1 (proj2 (handlePollError_feed _))). apply logEvents_feed.
Qed.

Lemma in_flight_inv_step w w' : step w w' -> in_flight_inv w -> in_flight_inv w'.
Proof.
  unfold in_flight_inv. intros Hstep Hinv.
  destruct Hstep as [w|w|w h d Hin|w now r Hpos].
  - destruct (start_frame w) as [-> ->]. exact Hinv.
  - destruct (stop_frame w) as [-> ->]. exact Hinv.
  - unfold Poly.timerFires, poll_begin. simpl.
    destruct (inFlight (feed w)) eqn:E.
    + destruct (schedulePoll_frame (logEvent poly_poll_skipped (dropTimer h w)))
        as (-> & -> & _). simpl. now rewrite E.
    + simpl. now rewrite Hinv.
  - unfold Poly.fetchSettles.
    match goal with |- context [schedulePoll ?x] =>
      destruct (schedulePoll_frame x) as (-> & -> & _) end.
    match goal with |- context [poll_resume now r ?x] =>
      destruct (poll_resume_frame now r x) as (-> & ->) end.
    simpl. destruct (inFlight (feed w)); lia.
Qed.

Lemma in_flight_inv_reachable w : reachable w -> in_flight_inv w.
Proof.
  intros Hr. refine (rtc_ind_r in_flight_inv init _ _ w Hr).
  - reflexivity.
  - intros w1 w2 _ Hs IH. eapply in_flight_inv_step; eassumption.
Qed.

(** C9 (no overlap).  A poll that begins while the in-flight flag is set
    is skipped: [poll] returns at once, no fetch is started, and nothing of
    the feed, the timers or the pending fetches changes; only the log
    grows, by [poly.poll.skipped].  The timer callback that ran it then
    starts no fetch either.  In every world the feed can reach through
    starts, stops, timers firing and fetches settling, at most one fetch is
    pending, one is pending exactly when the flag is set, and a step that
    starts a fetch starts from no pending fetch: a poll never fetches
    before the previous fetch has settled. *)
Theorem poll_skipped_while_in_flight w h w1 w2 :
  inFlight (feed w) = true ->
  reachable w1 ->
  step w1 w2 ->
  poll_begin w = (logEvent poly_poll_skipped w, false)
  /\ feed (fst (poll_begin w)) = feed w
  /\ timers (fst (poll_begin w)) = timers w
  /\ pendingFetches (fst (poll_begin w)) = pendingFetches w
  /\ log (fst (poll_begin w)) = log w ++ [poly_poll_skipped]
  /\ pendingFetches (timerFires h w) = pendingFetches w
  /\ log (timerFires h w) = log w ++ [poly_poll_skipped]
  /\ (pendingFetches w1 <= 1)%nat
  /\ (pendingFetches w1 = 1%nat <-> inFlight (feed w1) = true)
  /\ ((pendingFetches w1 < pendingFetches w2)%nat ->
      pendingFetches w1 = 0%nat /\ inFlight (feed w1) = false).
Proof.
  intros Hfl Hr Hs.
  pose proof (in_flight_inv_reachable w1 Hr) as H1.
  pose proof (in_flight_inv_step w1 w2 Hs H1) as H2.
  unfold in_flight_inv in H1, H2.
  assert (Hb : poll_begin w = (logEvent poly_poll_skipped w, false))
    by (unfold poll_begin; now rewrite Hfl).
  split; [exact Hb|]. rewrite Hb. simpl.
  do 4 (split; [reflexivity|]).
  assert (Ht : timerFires h w
               = schedulePoll (logEvent poly_poll_skipped (dropTimer h w))).
  { unfold Poly.timerFires, poll_begin. simpl. now rewrite Hfl. }
  rewrite Ht.
  destruct (schedulePoll_frame (logEvent poly_poll_skipped (dropTimer h w)))
    as (_ & -> & _ & _ & ->). simpl.
  do 2 (split; [reflexivity|]).
  destruct (inFlight (feed w1)), (inFlight (feed w2)); rewrite H1, H2;
    repeat split; try lia; try discriminate; try reflexivity.
Qed.


(** *** Validation *)

Lemma poll_resume_book now orderbook w :
  feed (poll_resume now (Resolved (Some orderbook)) w)
  = match fst (normalizeOrderbook now orderbook) with
    | Some md =>
        {| pollTimer := pollTimer (feed w); inFlight := false;
           isRunning := isRunning (feed w);
           consecutiveErrors := 0; currentBackoffMs := 0 |}
    | None =>
        {| pollTimer := pollTimer (feed w); inFlight := false;
           isRunning := isRunning (feed w);
           consecutiveErrors := S (consecutiveErrors (feed w));
           currentBackoffMs :=
             Z.min (baseIntervalMs cfg
                    * 2 ^ (Z.of_nat (S (consecutiveErrors (feed w))) - 1))
                   maxBackoffMs |}
    end.
Proof.
  unfold Poly.poll_resume.
  destruct (normalizeOrderbook now orderbook) as [[md|] lg]; simpl.
  - now rewrite (proj1 (logEvents_feed lg w)).
  - match goal with |- context [handlePollError ?x] =>
      destruct (handlePollError_feed x) as (-> & _ & _) end.
    simpl. now rewrite (proj1 (logEvents_feed lg w)).
Qed.

Lemma normalizeOrderbook_cases now orderbook :
  match head (sortBidsDesc parseFloat (bids orderbook)),
        head (sortAsksAsc parseFloat (asks orderbook)) with
  | Some b, Some a =>
      let bb := parseFloat (price b) in
      let ba := parseFloat (price a) in
      fst (normalizeOrderbook now orderbook)
      = if isNaN bb || isNaN ba || le bb 0 || le ba 0 then None
        else Some {| tokenId := POLYMARKET_TOKEN_ID cfg;
                     midPrice := ((bb + ba) / 2)%float;
                     bestBid := bb;
                     bestAsk := ba;
                     spreadBps := ((ba - bb) / ((bb + ba) / 2) * 10000)%float;
                     depthTopN :=
                       calculateDepth cfg parseFloat
                         (sortBidsDesc parseFloat (bids orderbook))
                         (sortAsksAsc parseFloat (asks orderbook));
                     tsLocal := now |}
  | _, _ =>
      fst (normalizeOrderbook now orderbook) = None
      /\ (bids orderbook = [] \/ asks orderbook = [])
  end.
Proof.
  unfold Poly.normalizeOrderbook.
  destruct (bids orderbook) as [|b0 bs]; [simpl; auto|].
  destruct (asks orderbook) as [|a0 az].
  { destruct (head (sortBidsDesc parseFloat (b0 :: bs))); simpl; auto. }
  unfold sortBidsDesc, sortAsksAsc.
  destruct (sortBy_cons (fun a b => (parseFloat (price b) - parseFloat (price a))%float)
              b0 bs) as (b & bs' & ->).
  destruct (sortBy_cons (fun a b => (parseFloat (price a) - parseFloat (price b))%float)
              a0 az) as (a & az' & ->).
  simpl.
  destruct (isNaN (parseFloat (price b)) || isNaN (parseFloat (price a))
            || le (parseFloat (price b)) 0 || le (parseFloat (price a)) 0);
    reflexivity.
Qed.


Lemma afterErrors_count k w0 :
  consecutiveErrors (feed (afterErrors cfg k w0))
  = (k + consecutiveErrors (feed w0))%nat.
Proof.
  induction k as [|k IH]; simpl; [reflexivity|].
  destruct (handlePollError_feed (afterErrors cfg k w0)) as (-> & _ & _).
  simpl. now rewrite IH.
Qed.

Lemma afterErrors_backoff k w0 :
  currentBackoffMs (feed (afterErrors cfg (S k) w0))
  = Z.min (baseIntervalMs cfg
           * 2 ^ (Z.of_nat (S (k + consecutiveErrors (feed w0))) - 1))
          maxBackoffMs.
Proof.
  simpl. destruct (handlePollError_feed (afterErrors cfg k w0)) as (-> & _ & _).
  simpl. now rewrite afterErrors_count.
Qed.



End Feed.




Lemma restartedWorld_reachable : Poly.reachable cfg5 parseFloatLit restartedWorld.
Proof.
  unfold Poly.reachable, restartedWorld, inFlightWorld.
  eapply rtc_l; [apply step_start|].
  eapply rtc_l; [apply (step_timer _ _ _ 0%nat 5000); vm_compute; constructor|].
  eapply rtc_l; [apply step_stop|].
  eapply rtc_l; [apply step_start|].
  apply rtc_refl.
Defined.

Lemma poll_skipped_while_in_flight_witness :
  pendingFetches (Poly.timerFires cfg5 1 restartedWorld) = 1%nat
  /\ log (Poly.timerFires cfg5 1 restartedWorld)
     = log restartedWorld ++ [poly_poll_skipped].
Proof.
  destruct (poll_skipped_while_in_flight cfg5 parseFloatLit restartedWorld 1%nat
              restartedWorld (Poly.timerFires cfg5 1 restartedWorld)
              eq_refl restartedWorld_reachable
              (step_timer cfg5 parseFloatLit restartedWorld 1%nat 5000
                 ltac:(vm_compute; constructor)))
    as (_ & _ & _ & _ & _ & H1 & H2 & _).
  split; [rewrite H1; reflexivity|exact H2].
Defined.

End PolyProofs.

(** ** Facts about NaN *)

Module FloatNaN.

Lemma is_nan_Prim2SF (x : float) :
  PrimFloat.is_nan x = true <-> Prim2SF x = S754_nan.
Proof.
  split.
  - intros H. unfold Prim2SF. now rewrite H.
  - intros H. rewrite <- (SF2Prim_Prim2SF x), H. reflexivity.
Qed.

Lemma ltb_nan_l x y : PrimFloat.is_nan x = true -> (x <? y)%float = false.
Proof.
  intros H. apply is_nan_Prim2SF in H. rewrite ltb_spec, H. reflexivity.
Qed.

Lemma ltb_nan_r x y : PrimFloat.is_nan y = true -> (x <? y)%float = false.
Proof.
  intros H. apply is_nan_Prim2SF in H. rewrite ltb_spec, H.
  unfold SFltb. destruct (Prim2SF x); reflexivity.
Qed.

Lemma leb_nan_l x y : PrimFloat.is_nan x = true -> (x <=? y)%float = false.
Proof.
  intros H. apply is_nan_Prim2SF in H. rewrite leb_spec, H. reflexivity.
Qed.

Lemma leb_nan_r x y : PrimFloat.is_nan y = true -> (x <=? y)%float = false.
Proof.
  intros H. apply is_nan_Prim2SF in H. rewrite leb_spec, H.
  unfold SFleb. destruct (Prim2SF x); reflexivity.
Qed.

Lemma abs_nan x : PrimFloat.is_nan x = true -> PrimFloat.is_nan (abs x) = true.
Proof.
  rewrite !is_nan_Prim2SF. intros H. now rewrite abs_spec, H.
Qed.

Lemma sub_nan_l x y : PrimFloat.is_nan x = true -> PrimFloat.is_nan (x - y) = true.
Proof.
  rewrite !is_nan_Prim2SF. intros H. now rewrite sub_spec, H.
Qed.

Lemma mul_nan_l x y : PrimFloat.is_nan x = true -> PrimFloat.is_nan (x * y) = true.
Proof.
  rewrite !is_nan_Prim2SF. intros H. now rewrite mul_spec, H.
Qed.

Lemma div_nan_l x y : PrimFloat.is_nan x = true -> PrimFloat.is_nan (x / y) = true.
Proof.
  rewrite !is_nan_Prim2SF. intros H. now rewrite div_spec, H.
Qed.

Lemma div_nan_r x y : PrimFloat.is_nan y = true -> PrimFloat.is_nan (x / y) = true.
Proof.
  rewrite !is_nan_Prim2SF. intros H. rewrite div_spec, H.
  unfold SF64div, SFdiv. destruct (Prim2SF x); reflexivity.
Qed.

End FloatNaN.

(** ** The engine under a sequence of calls: proofs *)

Module EngineCallsProofs.
Import JsNum Env Strategy EngineCalls StrategyProofs.
Local Open Scope Z_scope.

Section Calls.
Variable cfg : env.

Lemma signals_app l1 l2 : signals (l1 ++ l2) = signals l1 ++ signals l2.
Proof. unfold signals. apply flat_map_app. Qed.

(** One call: no signal and the same [lastSignalTime], or one signal
    stamped [now], at least a cooldown after the last one. *)
Lemma call_signal st c :
  (signals (snd (call cfg st c)) = []
   /\ lastSignalTime (fst (call cfg st c)) = lastSignalTime st)
  \/ exists s,
       signals (snd (call cfg st c)) = [s]
       /\ lastSignalTime (fst (call cfg st c)) = sig_timestamp s
       /\ lastSignalTime st + ARB_COOLDOWN_MS cfg <= sig_timestamp s.
Proof.
  destruct c as [now snapshot|now symbol price moveBps direction]; simpl.
  - left. split; reflexivity.
  - destruct (processSpotMove_ending cfg now st symbol price moveBps direction)
      as [data H0|latest data Hl H1|latest data Hl H1 H2
          |latest data Hl H1 H2 H3|latest data Hl H1 H2 H3 H4 He
          |latest s Hl H1 H2 H3 H4 He Ht];
      try (left; split; reflexivity).
    right. exists s. split; [reflexivity|]. simpl. rewrite Ht.
    split; [reflexivity|]. cbn [gate_fails] in H3. apply Z.ltb_ge in H3. lia.
Qed.

Lemma runCalls_spaced st calls :
  spaced (ARB_COOLDOWN_MS cfg) (lastSignalTime st)
    (map sig_timestamp (signals (snd (runCalls cfg st calls)))).
Proof.
  revert st. induction calls as [|c rest IH]; intros st; simpl; [exact I|].
  destruct (call cfg st c) as [st1 log1] eqn:Ec.
  specialize (IH st1).
  destruct (runCalls cfg st1 rest) as [st2 log2]. simpl in *.
  rewrite signals_app, map_app.
  pose proof (call_signal st c) as Hc. rewrite Ec in Hc. simpl in Hc.
  destruct Hc as [[-> Hl]|(s & -> & Hl & Hge)]; simpl.
  - now rewrite <- Hl.
  - split; [exact Hge|]. now rewrite <- Hl.
Qed.

Lemma spaced_adjacent gap floor ts i a b :
  spaced gap floor ts -> ts !! i = Some a -> ts !! S i = Some b -> gap <= b - a.
Proof.
  revert floor i. induction ts as [|t ts IH]; intros floor i Hs Ha Hb;
    [discriminate|].
  destruct Hs as [_ Hs]. destruct i as [|i].
  - simpl in Ha. injection Ha as ->. destruct ts as [|t' ts]; [discriminate|].
    simpl in Hb. injection Hb as ->. destruct Hs as [Hs _]. lia.
  - simpl in Ha, Hb. eapply IH; eassumption.
Qed.

(** X1 (signals are a cooldown apart).  Over any sequence of calls of
    [updatePolySnapshot] and [processSpotMove] on a new engine, whatever
    the clocks and the arguments are, two signals emitted one after the
    other have timestamps at least [ARB_COOLDOWN_MS] apart. *)
Theorem signals_spaced_by_cooldown calls i a b :
  let ts := map sig_timestamp (signals (snd (runCalls cfg init calls))) in
  ts !! i = Some a ->
  ts !! S i = Some b ->
  ARB_COOLDOWN_MS cfg <= b - a.
Proof.
  intros ts Ha Hb. subst ts.
  eapply spaced_adjacent; [apply (runCalls_spaced init calls)| |]; eassumption.
Qed.

(** X2 (what a signal says).  A signal that [processSpotMove] emits carries
    the move it was called with, the clock of the call, and the token, mid
    price, spread and depth of the latest snapshot of the history; that
    spread is not above [ARB_MAX_POLY_SPREAD_BPS], that depth is not below
    [ARB_MIN_POLY_DEPTH], the cooldown has elapsed since [lastSignalTime],
    and its edge is |moveBps| - |polyMoveBps| and is not below
    [ARB_MIN_EDGE_BPS], each as the program compares them. *)
Theorem signal_passed_every_gate now st symbol price moveBps direction s :
  In (arb_signal s) (snd (processSpotMove cfg now st symbol price moveBps direction)) ->
  exists latest,
    last (polySnapshots st) = Some latest
    /\ polyTokenId s = tokenId latest
    /\ polyMidPrice s = midPrice latest
    /\ polySpreadBps s = spreadBps latest
    /\ polyDepth s = depthTopN latest
    /\ spotSymbol s = symbol /\ spotPrice s = price
    /\ spotMoveBps s = moveBps /\ spotDirection s = direction
    /\ sig_timestamp s = now
    /\ gt (polySpreadBps s) (ARB_MAX_POLY_SPREAD_BPS cfg) = false
    /\ lt (polyDepth s) (ARB_MIN_POLY_DEPTH cfg) = false
    /\ ARB_COOLDOWN_MS cfg <= now - lastSignalTime st
    /\ edgeBps s = (PrimFloat.abs moveBps - PrimFloat.abs (calculatePolyMovement st))%float
    /\ lt (edgeBps s) (ARB_MIN_EDGE_BPS cfg) = false.
Proof.
  unfold processSpotMove. rewrite getLatest_last.
  destruct (last (polySnapshots st)) as [latest|]; simpl;
    [|intros [[=]|[]]].
  destruct (gt (spreadBps latest) (ARB_MAX_POLY_SPREAD_BPS cfg)) eqn:Hs;
    [intros [[=]|[]]|].
  destruct (lt (depthTopN latest) (ARB_MIN_POLY_DEPTH cfg)) eqn:Hd;
    [intros [[=]|[]]|].
  destruct (now - lastSignalTime st <? ARB_COOLDOWN_MS cfg) eqn:Hc;
    [intros [[=]|[]]|].
  destruct (lt (Math_abs moveBps - Math_abs (calculatePolyMovement st))
               (ARB_MIN_EDGE_BPS cfg)) eqn:He; [intros [[=]|[]]|].
  intros [[= <-]|[]]. exists latest. simpl. apply Z.ltb_ge in Hc.
  repeat split; try assumption; reflexivity.
Qed.

(** X3 (NaN passes the gates).  The gates discard on a comparison that
    holds, and no comparison with NaN holds: when the latest snapshot has a
    NaN spread and a NaN depth and the move is NaN, a call whose cooldown
    has elapsed emits a signal, and the signal's spread, depth and edge are
    NaN. *)
Theorem nan_passes_every_float_gate
    now history latest lastSignal symbol price moveBps direction :
  last history = Some latest ->
  PrimFloat.is_nan (spreadBps latest) = true ->
  PrimFloat.is_nan (depthTopN latest) = true ->
  PrimFloat.is_nan moveBps = true ->
  ARB_COOLDOWN_MS cfg <= now - lastSignal ->
  exists s,
    snd (processSpotMove cfg now
           {| polySnapshots := history; lastSignalTime := lastSignal |}
           symbol price moveBps direction) = [arb_signal s]
    /\ PrimFloat.is_nan (polySpreadBps s) = true
    /\ PrimFloat.is_nan (polyDepth s) = true
    /\ PrimFloat.is_nan (edgeBps s) = true.
Proof.
  intros Hl Hs Hd Hm Hc.
  unfold processSpotMove. rewrite getLatest_last. cbn [polySnapshots lastSignalTime].
  rewrite Hl. unfold gt, lt, Math_abs.
  rewrite (FloatNaN.ltb_nan_r _ _ Hs), (FloatNaN.ltb_nan_l _ _ Hd).
  apply Z.ltb_ge in Hc. rewrite Hc.
  assert (He : PrimFloat.is_nan
            (abs moveBps - abs (calculatePolyMovement
               {| polySnapshots := history; lastSignalTime := lastSignal |})) = true)
    by (apply FloatNaN.sub_nan_l, FloatNaN.abs_nan, Hm).
  rewrite (FloatNaN.ltb_nan_l _ _ He).
  eexists. split; [reflexivity|]. simpl. auto.
Qed.

(** *** The history after a run of updates *)

Lemma runCalls_snoc st calls c :
  fst (runCalls cfg st (calls ++ [c]))
  = fst (call cfg (fst (runCalls cfg st calls)) c).
Proof.
  revert st. induction calls as [|c0 rest IH]; intros st; simpl.
  - destruct (call cfg st c); reflexivity.
  - destruct (call cfg st c0) as [st1 log1]. specialize (IH st1).
    destruct (runCalls cfg st1 (rest ++ [c])) as [st2 log2].
    destruct (runCalls cfg st1 rest) as [st3 log3]. simpl in *. exact IH.
Qed.

Lemma pushed_clocks_nil calls : updateClocks calls = [] -> pushed calls = [].
Proof.
  induction calls as [|[now s|? ? ? ? ?] rest IH]; simpl; auto. discriminate.
Qed.

Lemma filter_filter_weaker (c0 c1 : Z) (l : list PolySnapshot) :
  c0 <= c1 ->
  List.filter (fun s => c1 <=? timestamp s)
              (List.filter (fun s => c0 <=? timestamp s) l)
  = List.filter (fun s => c1 <=? timestamp s) l.
Proof.
  intros Hle. induction l as [|x l IH]; simpl; [reflexivity|].
  destruct (c0 <=? timestamp x) eqn:E0; simpl.
  - now rewrite IH.
  - rewrite IH. destruct (c1 <=? timestamp x) eqn:E1; [|reflexivity].
    apply Z.leb_le in E1. apply Z.leb_gt in E0. lia.
Qed.

Lemma sorted_snoc_inv (l : list Z) x :
  StronglySorted Z.le (l ++ [x]) ->
  StronglySorted Z.le l /\ Forall (fun y => y <= x) l.
Proof.
  induction l as [|y l IH]; simpl; intros H; [split; constructor|].
  inversion H as [|? ? Hs Hall]; subst. destruct (IH Hs) as [IH1 IH2].
  apply Forall_app in Hall as [Hall1 Hall2].
  split; constructor; auto. now inversion Hall2.
Qed.

Lemma move_keeps_history now st symbol price moveBps direction :
  polySnapshots (fst (processSpotMove cfg now st symbol price moveBps direction))
  = polySnapshots st.
Proof.
  destruct (processSpotMove_ending cfg now st symbol price moveBps direction);
    reflexivity.
Qed.

Lemma updateClocks_snoc calls c :
  updateClocks (calls ++ [c])
  = updateClocks calls ++ match c with update now _ => [now] | _ => [] end.
Proof.
  unfold updateClocks. rewrite flat_map_app. simpl. now rewrite app_nil_r.
Qed.

Lemma pushed_snoc calls c :
  pushed (calls ++ [c])
  = pushed calls ++ match c with update _ s => [s] | _ => [] end.
Proof.
  unfold pushed. rewrite flat_map_app. simpl. now rewrite app_nil_r.
Qed.

(** X4 (the history is the recent part of what was pushed).  When the
    clocks of the [updatePolySnapshot] calls do not go back, the history
    after any sequence of calls on a new engine is the list of all
    snapshots pushed so far, in order, without those whose timestamp is
    more than 60 s before the clock of the last push; calls of
    [processSpotMove] in between make no difference. *)
Theorem history_is_one_filter_of_all_pushed calls :
  StronglySorted Z.le (updateClocks calls) ->
  polySnapshots (fst (runCalls cfg init calls))
  = match last (updateClocks calls) with
    | Some now =>
        List.filter (fun s => now - 60000 <=? timestamp s) (pushed calls)
    | None => []
    end.
Proof.
  induction calls as [|c calls IH] using rev_ind; [reflexivity|].
  rewrite runCalls_snoc, updateClocks_snoc, pushed_snoc.
  destruct c as [now s|now symbol price moveBps direction]; intros Hsorted.
  - rewrite last_snoc. apply sorted_snoc_inv in Hsorted as [Hpre Hle].
    cbn [call updatePolySnapshot fst polySnapshots]. rewrite (IH Hpre).
    rewrite !List.filter_app. unfold snapshotWindowMs.
    destruct (last (updateClocks calls)) as [n0|] eqn:El.
    + f_equal. apply filter_filter_weaker.
      apply last_Some in El as [l' El]. rewrite El in Hle.
      apply Forall_app in Hle as [_ Hle]. inversion Hle; subst. lia.
    + apply last_None in El. now rewrite (pushed_clocks_nil calls El).
  - rewrite !app_nil_r in Hsorted |- *. cbn [call].
    rewrite move_keeps_history, (IH Hsorted).
    destruct (last (updateClocks calls)); [now rewrite app_nil_r|reflexivity].
Qed.

End Calls.

Lemma signals_spaced_by_cooldown_witness :
  map sig_timestamp
    (signals (snd (runCalls cfg0 init
       [update 1700000000000 (snap 0.5 40 100 1700000000000);
        move 1700000000000 "BTCUSDT" 65000 60 up;
        move 1700000001000 "BTCUSDT" 65000 70 up;
        move 1700000015000 "BTCUSDT" 65000 80 up])))
  = [1700000000000; 1700000015000]
  /\ 15000 <= 1700000015000 - 1700000000000.
Proof.
  split; [reflexivity|].
  exact (signals_spaced_by_cooldown cfg0
           [update 1700000000000 (snap 0.5 40 100 1700000000000);
            move 1700000000000 "BTCUSDT" 65000 60 up;
            move 1700000001000 "BTCUSDT" 65000 70 up;
            move 1700000015000 "BTCUSDT" 65000 80 up]
           0%nat 1700000000000 1700000015000 eq_refl eq_refl).
Defined.

Lemma signal_passed_every_gate_witness :
  exists latest, last (polySnapshots st_one) = Some latest
                 /\ polyMidPrice sig_one = midPrice latest.
Proof.
  destruct (signal_passed_every_gate cfg0 1700000000000 st_one
              "BTCUSDT" 65000 60 up sig_one (or_introl eq_refl))
    as (latest & Hl & _ & Hm & _).
  exists latest. split; assumption.
Defined.

Lemma nan_passes_every_float_gate_witness :
  exists s,
    snd (processSpotMove cfg0 1700000000000
           {| polySnapshots := [nanSnap]; lastSignalTime := 0 |}
           "BTCUSDT" 65000 nan up) = [arb_signal s]
    /\ PrimFloat.is_nan (edgeBps s) = true.
Proof.
  destruct (nan_passes_every_float_gate cfg0 1700000000000 [nanSnap] nanSnap 0
              "BTCUSDT" 65000 nan up eq_refl eq_refl eq_refl eq_refl
              ltac:(vm_compute; discriminate))
    as (s & H1 & _ & _ & H2).
  exists s. split; assumption.
Defined.

Lemma history_is_one_filter_of_all_pushed_witness :
  polySnapshots (fst (runCalls cfg0 init
     [update 100000 (snap 0.5 40 100 100000);
      update 130000 (snap 0.5 40 100 90000);
      update 165000 (snap 0.5 40 100 165000)]))
  = [snap 0.5 40 100 165000].
Proof.
  rewrite (history_is_one_filter_of_all_pushed cfg0
     [update 100000 (snap 0.5 40 100 100000);
      update 130000 (snap 0.5 40 100 90000);
      update 165000 (snap 0.5 40 100 165000)]).
  - reflexivity.
  - repeat constructor; vm_compute; discriminate.
Defined.

End EngineCallsProofs.

(** ** The streaming feed's windows: proofs *)

Module SpotWindowProofs.
Import JsNum Env Spot SpotProofs SpotWindow.
Local Open Scope Z_scope.

Section Feed.
Variable cfg : env.

Lemma latestPrice_updateBuffers st tick :
  latestPrice (updateBuffers cfg st tick)
  = <[symbol tick := price tick]> (latestPrice st).
Proof.
  unfold updateBuffers.
  destruct (shouldSample cfg _ tick); reflexivity.
Qed.

(** X5 (latest price).  After any sequence of ticks processed by a new
    feed, the latest price of a symbol is the price of the last tick of
    that symbol, sampled into the window or not, and there is none when no
    tick of the symbol arrived. *)
Theorem latest_price_is_last_tick ticks sym :
  latestPrice (run cfg init ticks) !! sym
  = price <$> last (ticksOf sym ticks).
Proof.
  induction ticks as [|t ticks IH] using rev_ind.
  - unfold run, init. simpl. apply lookup_empty.
  - rewrite run_snoc, latestPrice_updateBuffers.
    unfold ticksOf in *. rewrite List.filter_app. simpl.
    destruct (String.eqb (symbol t) sym) eqn:E.
    + apply String.eqb_eq in E. subst sym.
      rewrite lookup_insert_eq, last_snoc. reflexivity.
    + apply String.eqb_neq in E.
      rewrite lookup_insert_ne by exact E. now rewrite app_nil_r.
Qed.

(** X6 (symbols are independent).  Processing a tick leaves the window,
    the buffer, the latest price and the last sample time of every other
    symbol as they were, and a move it logs carries the tick's symbol. *)
Theorem processTick_touches_one_symbol st tick sym :
  symbol tick <> sym ->
  let st' := fst (processTick cfg st tick) in
  window st' sym = window st sym
  /\ priceBuffer st' !! sym = priceBuffer st !! sym
  /\ latestPrice st' !! sym = latestPrice st !! sym
  /\ lastSampleTime st' !! sym = lastSampleTime st !! sym
  /\ Forall (fun r => ret_symbol r = symbol tick)
            (moves (snd (processTick cfg st tick))).
Proof.
  intros Hne st'. subst st'. rewrite fst_processTick.
  rewrite window_updateBuffers, lastSample_updateBuffers,
    latestPrice_updateBuffers.
  rewrite (bool_decide_eq_false_2 _ Hne), andb_false_r.
  split; [reflexivity|]. split.
  { unfold updateBuffers.
    change (shouldSample cfg _ tick) with (shouldSample cfg st tick).
    destruct (shouldSample cfg st tick); simpl; [|reflexivity].
    now rewrite lookup_insert_ne. }
  split; [now rewrite lookup_insert_ne|]. split; [reflexivity|].
  rewrite processTick_moves.
  destruct (windowReturn (updateBuffers cfg st tick) tick) as [r|] eqn:Er;
    [|constructor].
  destruct (moveGate cfg r); [|constructor].
  repeat constructor. unfold windowReturn in Er.
  destruct (priceBuffer (updateBuffers cfg st tick) !! symbol tick) as [b|];
    [|discriminate].
  destruct (1 <? length b)%nat; [|discriminate].
  destruct (b !! 0%nat); [|discriminate]. now injection Er as <-.
Qed.

(** *** The shape of the window *)

Lemma gapped_suffix (l1 l2 : list SpotTick) :
  l1 `suffix_of` l2 -> StronglySorted (gapped cfg) l2 ->
  StronglySorted (gapped cfg) l1.
Proof.
  intros [k ->]. induction k as [|a k IH]; simpl; [done|].
  intros H. apply IH. now inversion H.
Qed.

Lemma gapped_snoc (l : list SpotTick) t :
  StronglySorted (gapped cfg) l -> Forall (fun a => gapped cfg a t) l ->
  StronglySorted (gapped cfg) (l ++ [t]).
Proof.
  induction l as [|a l IH]; simpl; intros Hs Hf.
  - repeat constructor.
  - inversion Hs; subst. inversion Hf; subst. constructor; [now apply IH|].
    apply Forall_app. split; [assumption|]. now repeat constructor.
Qed.

Lemma window_shape_init sym : window_shape cfg init sym.
Proof.
  split; unfold window, init; simpl; rewrite ?lookup_empty; simpl;
    try constructor; try done.
Qed.

Lemma window_shape_step st tick sym :
  0 < SPOT_BUFFER_SAMPLE_MS cfg ->
  0 <= SPOT_RETURN_WINDOW_MS cfg ->
  window_shape cfg st sym -> window_shape cfg (updateBuffers cfg st tick) sym.
Proof.
  intros Hpos HW [Hs Hnew Hfresh Hin].
  pose proof (window_updateBuffers cfg st tick sym) as Hw.
  pose proof (lastSample_updateBuffers cfg st tick sym) as Hl.
  destruct (shouldSample cfg st tick && bool_decide (symbol tick = sym)) eqn:E.
  2:{ split; rewrite ?Hw, ?Hl; assumption. }
  apply andb_true_iff in E as [Hsample Hsym].
  apply bool_decide_eq_true in Hsym. subst sym.
  unfold shouldSample in Hsample. apply Z.leb_le in Hsample.
  set (cutoff := tsLocal tick - SPOT_RETURN_WINDOW_MS cfg) in *.
  assert (Hold : Forall (fun a => gapped cfg a tick) (window st (symbol tick))).
  { destruct (lastSampleTime st !! symbol tick) as [ts|] eqn:Els.
    - eapply Forall_impl; [exact (Hin ts eq_refl)|].
      unfold gapped. simpl in *. intros. lia.
    - rewrite (Hfresh eq_refl). constructor. }
  assert (Hpushed : StronglySorted (gapped cfg) (window st (symbol tick) ++ [tick]))
    by (apply gapped_snoc; assumption).
  pose proof (shiftOld_suffix cutoff (window st (symbol tick) ++ [tick])) as Hsuf.
  assert (Hkept : StronglySorted (gapped cfg)
                    (shiftOld cutoff (window st (symbol tick) ++ [tick])))
    by (eapply gapped_suffix; eassumption).
  split; rewrite Hw, ?Hl.
  - exact Hkept.
  - intros ts [= <-]. exists tick. split; [|reflexivity].
    apply shiftOld_snoc_last. unfold cutoff. lia.
  - discriminate.
  - intros ts [= <-]. apply Forall_forall. intros a Ha. split.
    + assert (Hb : Forall (fun a => cutoff <= tsLocal a)
                     (shiftOld cutoff (window st (symbol tick) ++ [tick]))).
      { clear - Hkept Hpos.
        destruct (shiftOld cutoff (window st (symbol tick) ++ [tick]))
          as [|h rest] eqn:Eh; [constructor|].
        pose proof (shiftOld_head cutoff _ h ltac:(rewrite Eh; reflexivity)) as Hh.
        inversion Hkept as [|? ? _ Hall]; subst. constructor; [exact Hh|].
        eapply Forall_impl; [exact Hall|]. unfold gapped. simpl. intros. lia. }
      rewrite Forall_forall in Hb. exact (Hb a Ha).
    + apply (elem_of_suffix _ _ _ Ha) in Hsuf.
      apply elem_of_app in Hsuf as [Hin'|Hin'].
      * rewrite Forall_forall in Hold. specialize (Hold a Hin').
        unfold gapped in Hold. lia.
      * apply list_elem_of_singleton in Hin'. subst a. lia.
Qed.

Lemma window_shape_run ticks sym :
  0 < SPOT_BUFFER_SAMPLE_MS cfg ->
  0 <= SPOT_RETURN_WINDOW_MS cfg ->
  window_shape cfg (run cfg init ticks) sym.
Proof.
  intros Hpos HW. induction ticks as [|t ticks IH] using rev_ind.
  - apply window_shape_init.
  - rewrite run_snoc. now apply window_shape_step.
Qed.

(** Ticks a gap apart, all between [lo] and [hi], are few. *)
Lemma gapped_span (l : list SpotTick) lo hi :
  0 < SPOT_BUFFER_SAMPLE_MS cfg ->
  StronglySorted (gapped cfg) l ->
  Forall (fun a => lo <= tsLocal a <= hi) l ->
  l <> [] ->
  (Z.of_nat (length l) - 1) * SPOT_BUFFER_SAMPLE_MS cfg <= hi - lo.
Proof.
  intros Hpos. revert lo. induction l as [|a l IH]; intros lo Hs Hb Hne; [done|].
  inversion Hs as [|? ? Hs' Hall]; subst. inversion Hb as [|? ? Ha Hb']; subst.
  destruct l as [|b l]; [simpl; lia|].
  specialize (IH (tsLocal a + SPOT_BUFFER_SAMPLE_MS cfg) Hs').
  assert (Hb2 : Forall (fun x => tsLocal a + SPOT_BUFFER_SAMPLE_MS cfg
                                 <= tsLocal x <= hi) (b :: l)).
  { rewrite Forall_forall in Hall, Hb' |- *. intros x Hx.
    specialize (Hall x Hx). specialize (Hb' x Hx). unfold gapped in Hall. lia. }
  specialize (IH Hb2 ltac:(discriminate)).
  change (length (a :: b :: l)) with (S (length (b :: l))).
  rewrite Nat2Z.inj_succ. lia.
Qed.

(** X7 (the window is downsampled and bounded).  With a positive sampling
    interval and a window length that is not negative, after any sequence
    of ticks processed by a new feed: two residents of a symbol's window
    are at least [SPOT_BUFFER_SAMPLE_MS] of local time apart, the window
    holds at most [SPOT_RETURN_WINDOW_MS / SPOT_BUFFER_SAMPLE_MS + 1]
    ticks, and its newest resident is the tick whose local time is the
    symbol's last sample time (the window is empty when there is none). *)
Theorem window_is_bounded ticks sym :
  0 < SPOT_BUFFER_SAMPLE_MS cfg ->
  0 <= SPOT_RETURN_WINDOW_MS cfg ->
  let st := run cfg init ticks in
  StronglySorted
    (fun a b => tsLocal a + SPOT_BUFFER_SAMPLE_MS cfg <= tsLocal b)
    (window st sym)
  /\ Z.of_nat (length (window st sym))
     <= SPOT_RETURN_WINDOW_MS cfg / SPOT_BUFFER_SAMPLE_MS cfg + 1
  /\ match lastSampleTime st !! sym with
     | Some ts => exists t, last (window st sym) = Some t /\ tsLocal t = ts
     | None => window st sym = []
     end.
Proof.
  intros Hpos HW st. subst st.
  destruct (window_shape_run ticks sym Hpos HW) as [Hs Hnew Hfresh Hin].
  split; [exact Hs|]. split.
  - destruct (lastSampleTime (run cfg init ticks) !! sym) as [ts|] eqn:El.
    + destruct (Hnew ts eq_refl) as (t & Hlast & _).
      assert (Hne : window (run cfg init ticks) sym <> [])
        by (intros Hnil; rewrite Hnil in Hlast; discriminate).
      pose proof (gapped_span _ _ _ Hpos Hs (Hin ts eq_refl) Hne) as Hspan.
      assert (Z.of_nat (length (window (run cfg init ticks) sym)) - 1
              <= SPOT_RETURN_WINDOW_MS cfg / SPOT_BUFFER_SAMPLE_MS cfg).
      { apply Z.div_le_lower_bound; [exact Hpos|]. lia. }
      lia.
    + rewrite (Hfresh eq_refl). simpl.
      pose proof (Z.div_pos _ _ HW Hpos). lia.
  - destruct (lastSampleTime (run cfg init ticks) !! sym) as [ts|];
      [apply Hnew|apply Hfresh]; reflexivity.
Qed.

(** X8 (a NaN price never moves).  When the price of the tick is NaN, or
    the price of the oldest resident of its window is, the return is NaN
    and [processTick] logs no move. *)
Theorem nan_price_never_moves st tick :
  PrimFloat.is_nan (price tick) = true
  \/ (exists oldest,
        head (window (updateBuffers cfg st tick) (symbol tick)) = Some oldest
        /\ PrimFloat.is_nan (price oldest) = true) ->
  moves (snd (processTick cfg st tick)) = [].
Proof.
  intros Hnan. rewrite processTick_moves.
  destruct (windowReturn (updateBuffers cfg st tick) tick) as [r|] eqn:Er;
    [|reflexivity].
  assert (Hr : PrimFloat.is_nan (returnBps r) = true).
  { unfold windowReturn in Er. unfold window in Hnan.
    destruct (priceBuffer (updateBuffers cfg st tick) !! symbol tick)
      as [b|]; [|discriminate].
    destruct (1 <? length b)%nat; [|discriminate].
    rewrite <- head_lookup in Er.
    destruct (head b) as [oldest|] eqn:Eh; [|discriminate].
    injection Er as <-. simpl.
    apply FloatNaN.mul_nan_l, FloatNaN.sub_nan_l.
    destruct Hnan as [Hn|(o & Ho & Hn)].
    - now apply FloatNaN.div_nan_l.
    - simpl in Ho. rewrite Eh in Ho. injection Ho as ->.
      now apply FloatNaN.div_nan_r. }
  unfold moveGate, ge, Math_abs.
  rewrite (FloatNaN.leb_nan_r _ _ (FloatNaN.abs_nan _ Hr)).
  now rewrite andb_false_r.
Qed.

End Feed.

Lemma processTick_touches_one_symbol_witness :
  window (fst (processTick cfg1 (run cfg1 init [tick 100 1000])
                 (tickOf "ETHUSDT" 2000 1300))) "BTCUSDT"
  = [tick 100 1000].
Proof.
  destruct (processTick_touches_one_symbol cfg1 (run cfg1 init [tick 100 1000])
              (tickOf "ETHUSDT" 2000 1300) "BTCUSDT"
              ltac:(discriminate)) as (H & _).
  rewrite H. reflexivity.
Defined.

Lemma window_is_bounded_witness :
  length (window (run cfg1 init
     [tick 100 1000; tick 100 1250; tick 100 1500; tick 100 1750;
      tick 100 2000; tick 100 2250]) "BTCUSDT") = 5%nat
  /\ Z.of_nat (length (window (run cfg1 init
        [tick 100 1000; tick 100 1250; tick 100 1500; tick 100 1750;
         tick 100 2000; tick 100 2250]) "BTCUSDT")) <= 1000 / 250 + 1.
Proof.
  split; [reflexivity|].
  exact (proj1 (proj2 (window_is_bounded cfg1
     [tick 100 1000; tick 100 1250; tick 100 1500; tick 100 1750;
      tick 100 2000; tick 100 2250] "BTCUSDT" eq_refl ltac:(discriminate)))).
Defined.

Lemma nan_price_never_moves_witness :
  moves (snd (processTick cfg1 (run cfg1 init [tick 100 1000; tick 100 1900])
                (tick nan 2000))) = [].
Proof.
  apply (nan_price_never_moves cfg1). left. reflexivity.
Defined.

End SpotWindowProofs.

(** ** The streaming feed's connection: proofs *)

Module SpotConnProofs.
Import SpotConn.
Local Open Scope Z_scope.

(** X9 (reconnect delays).  The delay [scheduleReconnect] picks for an
    attempt is one of 1000, 2000, 5000, 10000, 30000; it does not decrease
    with the attempt, lies between 1 s and 30 s, and is 30 s from the
    fifth attempt (index 4) on. *)
Theorem reconnect_delay_ladder (n m : nat) :
  (n <= m)%nat ->
  reconnectDelay n <= reconnectDelay m
  /\ 1000 <= reconnectDelay n <= 30000
  /\ ((4 <= n)%nat -> reconnectDelay n = 30000)
  /\ In (reconnectDelay n) delays.
Proof.
  intros Hnm.
  assert (Hcap : forall k, (4 <= k)%nat -> reconnectDelay k = 30000).
  { intros k Hk. unfold reconnectDelay. simpl length.
    replace (Nat.min k (5 - 1)) with 4%nat by lia. reflexivity. }
  assert (Hsmall : forall k, (k < 4)%nat ->
            1000 <= reconnectDelay k < 30000 /\ In (reconnectDelay k) delays).
  { intros k Hk.
    destruct k as [|[|[|[|k]]]]; try lia; vm_compute; intuition discriminate. }
  assert (Hmono : forall k, reconnectDelay k <= reconnectDelay (S k)).
  { intros k. destruct (Nat.lt_ge_cases k 4) as [Hk|Hk].
    - destruct k as [|[|[|[|k]]]]; try lia; vm_compute; discriminate.
    - rewrite !Hcap by lia. lia. }
  split.
  { induction Hnm as [|m Hnm IH]; [lia|]. specialize (Hmono m). lia. }
  destruct (Nat.lt_ge_cases n 4) as [Hn|Hn].
  - destruct (Hsmall n Hn) as [Hb Hin]. repeat split; try lia; auto.
  - rewrite (Hcap n Hn). repeat split; try lia. vm_compute. auto 6.
Qed.

Lemma scheduleReconnect_frame w :
  isShuttingDown (feed (scheduleReconnect w)) = isShuttingDown (feed w)
  /\ reconnectAttempt (feed (scheduleReconnect w)) = reconnectAttempt (feed w)
  /\ ws (feed (scheduleReconnect w)) = ws (feed w)
  /\ reconnectTimer (feed (scheduleReconnect w)) = Some (nextHandle w)
  /\ announced (log (scheduleReconnect w))
     = announced (log w) ++ [reconnectDelay (reconnectAttempt (feed w))].
Proof.
  unfold scheduleReconnect, announced. simpl.
  rewrite flat_map_app. simpl. repeat split.
Qed.

(** Once shutting down, a step sets no timer and announces no reconnect. *)
Lemma step_after_stop w w' :
  step w w' -> isShuttingDown (feed w) = true ->
  isShuttingDown (feed w') = true
  /\ timers w' ⊆ timers w
  /\ announced (log w') = announced (log w).
Proof.
  intros Hstep Hdown.
  destruct Hstep as [w throws|w|w id Hin|w id Hin|w id Hin|w h d throws Hin].
  - unfold start, startSnapshotTimer, connect.
    destruct throws; simpl; rewrite ?Hdown; simpl.
    + unfold announced. rewrite flat_map_app, app_nil_r. auto.
    + auto.
  - unfold stop. simpl. split; [reflexivity|]. split; [|reflexivity].
    destruct (reconnectTimer (feed w)); [|reflexivity].
    intros x Hx. apply list_elem_of_In in Hx. apply filter_In in Hx.
    apply list_elem_of_In. tauto.
  - unfold onopen, announced. simpl.
    rewrite flat_map_app, app_nil_r. auto.
  - unfold onerror, announced. simpl.
    rewrite flat_map_app, app_nil_r. auto.
  - unfold onclose. simpl. rewrite Hdown. simpl. unfold announced.
    rewrite flat_map_app, app_nil_r. auto.
  - unfold timerFires, connect.
    assert (Hsub : List.filter (fun t => negb (fst t =? h)%nat) (timers w)
                   ⊆ timers w).
    { intros x Hx. apply list_elem_of_In in Hx. apply filter_In in Hx.
      apply list_elem_of_In. tauto. }
    destruct throws; simpl; rewrite ?Hdown; simpl.
    + unfold announced. rewrite flat_map_app, app_nil_r. auto.
    + auto.
Qed.

(** X10 (no reconnect after stop).  Once [isShuttingDown] is set, which
    [stop] does, it stays set whatever happens next, [start] included; no
    reconnect is announced any more, and no reconnect timer is added to
    those still pending. *)
Theorem no_reconnect_once_stopped w w' :
  isShuttingDown (feed w) = true ->
  rtc step w w' ->
  isShuttingDown (feed w') = true
  /\ timers w' ⊆ timers w
  /\ announced (log w') = announced (log w).
Proof.
  intros Hdown Hr. induction Hr as [w|w w1 w2 Hs Hr IH].
  - auto.
  - destruct (step_after_stop w w1 Hs Hdown) as (H1 & H2 & H3).
    destruct (IH H1) as (H4 & H5 & H6).
    split; [exact H4|]. split; [|congruence].
    intros x Hx. apply H2, H5, Hx.
Qed.

(** *** Failed rounds climb the ladder *)

Lemma failedRound_frame w id :
  isShuttingDown (feed w) = false ->
  ws (feed w) = Some id ->
  isShuttingDown (feed (failedRound w)) = false
  /\ (exists id', ws (feed (failedRound w)) = Some id')
  /\ reconnectAttempt (feed (failedRound w)) = S (reconnectAttempt (feed w))
  /\ announced (log (failedRound w))
     = announced (log w) ++ [reconnectDelay (reconnectAttempt (feed w))].
Proof.
  intros Hup Hws. unfold failedRound. rewrite Hws.
  unfold onclose. simpl. rewrite Hup. simpl.
  unfold timerFires, connect. simpl. rewrite Hup.
  split; [reflexivity|]. split; [eauto|]. split; [reflexivity|].
  unfold announced. rewrite !flat_map_app. simpl. now rewrite app_nil_r.
Qed.

(** X11 (failed rounds climb the ladder).  From a connected feed that is
    not shutting down, [k] rounds of the socket closing and the reconnect
    timer firing raise [reconnectAttempt] by [k] and announce the delays of
    the attempts in order; a socket that opens resets the attempt to 0, so
    that the reconnect after the next close waits 1000 ms. *)
Theorem failed_rounds_climb_the_ladder (k : nat) w id :
  isShuttingDown (feed w) = false ->
  ws (feed w) = Some id ->
  let w' := Nat.iter k failedRound w in
  reconnectAttempt (feed w') = (reconnectAttempt (feed w) + k)%nat
  /\ announced (log w')
     = announced (log w)
       ++ map (fun i => reconnectDelay (reconnectAttempt (feed w) + i)) (seq 0 k)
  /\ reconnectAttempt (feed (onopen w')) = 0%nat
  /\ announced (log (failedRound (onopen w')))
     = announced (log w') ++ [1000].
Proof.
  intros Hup Hws w'. subst w'.
  assert (H : isShuttingDown (feed (Nat.iter k failedRound w)) = false
    /\ (exists id', ws (feed (Nat.iter k failedRound w)) = Some id')
    /\ reconnectAttempt (feed (Nat.iter k failedRound w))
       = (reconnectAttempt (feed w) + k)%nat
    /\ announced (log (Nat.iter k failedRound w))
       = announced (log w)
         ++ map (fun i => reconnectDelay (reconnectAttempt (feed w) + i)) (seq 0 k)).
  { induction k as [|k IH].
    - simpl. rewrite Nat.add_0_r, app_nil_r. eauto.
    - destruct IH as (IH1 & (id' & IH2) & IH3 & IH4).
      rewrite Nat.iter_succ.
      destruct (failedRound_frame _ id' IH1 IH2) as (F1 & F2 & F3 & F4).
      split; [exact F1|]. split; [exact F2|]. split; [rewrite F3, IH3; lia|].
      rewrite F4, IH4, IH3, seq_S, map_app, <- app_assoc. reflexivity. }
  destruct H as (H1 & (id' & H2) & H3 & H4).
  split; [exact H3|]. split; [exact H4|]. split; [reflexivity|].
  destruct (failedRound_frame (onopen (Nat.iter k failedRound w)) id')
    as (_ & _ & _ & F4); [exact H1|exact H2|].
  rewrite F4. unfold onopen, announced. simpl.
  rewrite flat_map_app. simpl. now rewrite app_nil_r.
Qed.

Lemma reconnect_delay_ladder_witness :
  reconnectDelay 2 <= reconnectDelay 7 /\ reconnectDelay 7 = 30000.
Proof.
  destruct (reconnect_delay_ladder 2 7 ltac:(lia)) as (H & _).
  destruct (reconnect_delay_ladder 7 7 ltac:(lia)) as (_ & _ & H' & _).
  split; [exact H|apply H'; lia].
Defined.

Lemma stopped_then_restarted_reachable :
  rtc step (stop (start false init)) (onclose 2 (start false (stop (start false init)))).
Proof.
  eapply rtc_l; [apply (step_start _ false)|].
  eapply rtc_l; [apply (step_close _ 2); vm_compute; do 2 constructor|].
  apply rtc_refl.
Defined.

Lemma no_reconnect_once_stopped_witness :
  timers (onclose 2 (start false (stop (start false init)))) ⊆ []
  /\ announced (log (onclose 2 (start false (stop (start false init))))) = [].
Proof.
  destruct (no_reconnect_once_stopped (stop (start false init))
              (onclose 2 (start false (stop (start false init))))
              eq_refl stopped_then_restarted_reachable) as (_ & H1 & H2).
  split; [exact H1|exact H2].
Defined.

Lemma failed_rounds_climb_the_ladder_witness :
  announced (log (Nat.iter 6 failedRound (start false init)))
  = [1000; 2000; 5000; 10000; 30000; 30000].
Proof.
  destruct (failed_rounds_climb_the_ladder 6 (start false init) 0%nat
              eq_refl eq_refl) as (_ & H & _).
  rewrite H. reflexivity.
Defined.

End SpotConnProofs.

(** ** Sorting, depth, metrics and the client: proofs *)

Module PolyOrderProofs.
Import JsNum Env Poly PolyProofs PolyClient Metrics PolyOrder.
Local Open Scope Z_scope.

Section Sorting.
Variable cmp : PolyOrderbookLevel -> PolyOrderbookLevel -> float.

Lemma insertBy_perm x l : insertBy cmp x l ≡ₚ x :: l.
Proof.
  induction l as [|y l IH]; simpl; [reflexivity|].
  destruct (gt (cmp x y) 0); [|reflexivity].
  rewrite IH. apply Permutation_swap.
Qed.

Lemma sortBy_perm l : sortBy cmp l ≡ₚ l.
Proof.
  unfold sortBy. induction l as [|x l IH]; simpl; [reflexivity|].
  rewrite insertBy_perm. now rewrite IH.
Qed.

Lemma consistentOn_spec l :
  consistentOn cmp l = true ->
  (forall x y, In x l -> In y l ->
     notAfter cmp x y = false -> notAfter cmp y x = true)
  /\ (forall x y z, In x l -> In y l -> In z l ->
        notAfter cmp x y = true -> notAfter cmp y z = true ->
        notAfter cmp x z = true).
Proof.
  unfold consistentOn. rewrite forallb_forall. intros H. split.
  - intros x y Hx Hy Hxy. specialize (H x Hx). rewrite forallb_forall in H.
    specialize (H y Hy). apply andb_true_iff in H as [H _].
    rewrite Hxy in H. exact H.
  - intros x y z Hx Hy Hz Hxy Hyz. specialize (H x Hx).
    rewrite forallb_forall in H. specialize (H y Hy).
    apply andb_true_iff in H as [_ H]. rewrite forallb_forall in H.
    specialize (H z Hz). now rewrite Hxy, Hyz in H.
Qed.

Lemma insertBy_sorted (univ : list PolyOrderbookLevel) x l :
  consistentOn cmp univ = true ->
  In x univ -> Forall (fun y => In y univ) l ->
  StronglySorted (fun a b => notAfter cmp a b = true) l ->
  StronglySorted (fun a b => notAfter cmp a b = true) (insertBy cmp x l).
Proof.
  intros Hc Hx. destruct (consistentOn_spec univ Hc) as [Hasym Htrans].
  induction l as [|y l IH]; intros Hin Hs; simpl.
  - repeat constructor.
  - inversion Hs as [|? ? Hs' Hall]; subst.
    inversion Hin as [|? ? Hy Hin']; subst.
    destruct (gt (cmp x y) 0) eqn:E.
    + constructor; [now apply IH|].
      assert (Hyx : notAfter cmp y x = true).
      { apply Hasym; auto. unfold notAfter. now rewrite E. }
      rewrite Forall_forall. intros z Hz.
      apply list_elem_of_In in Hz.
      apply (Permutation_in _ (insertBy_perm x l)) in Hz.
      destruct Hz as [<-|Hz]; [exact Hyx|].
      rewrite Forall_forall in Hall. apply Hall. now apply list_elem_of_In.
    + assert (Hxy : notAfter cmp x y = true)
        by (unfold notAfter; now rewrite E).
      constructor; [exact Hs|]. constructor; [exact Hxy|].
      rewrite Forall_forall in Hall, Hin' |- *. intros z Hz.
      apply (Htrans x y z); auto.
Qed.

(** X12 (sorting a side).  The sort of a book's side with a comparator
    keeps exactly the levels it was given (a permutation, same length).
    When the comparator is consistent on them (never positive both ways,
    and transitive in its not-positive direction), the result is ordered:
    the comparator is not positive on any level against a later one, and
    the first level, the best price, is not after any level of the side. *)
Theorem sorted_side_keeps_levels_in_order l :
  sortBy cmp l ≡ₚ l
  /\ length (sortBy cmp l) = length l
  /\ (consistentOn cmp l = true ->
      StronglySorted (fun a b => gt (cmp a b) 0 = false) (sortBy cmp l)
      /\ (forall best x, head (sortBy cmp l) = Some best -> In x l ->
            gt (cmp best x) 0 = false)).
Proof.
  split; [apply sortBy_perm|]. split; [apply Permutation_length, sortBy_perm|].
  intros Hc.
  assert (Hs : StronglySorted (fun a b => notAfter cmp a b = true) (sortBy cmp l)).
  { assert (Hgen : forall k, Forall (fun y => In y l) k ->
              StronglySorted (fun a b => notAfter cmp a b = true) (sortBy cmp k)).
    { induction k as [|x k IH]; intros Hk; [constructor|].
      inversion Hk; subst. unfold sortBy. simpl.
      apply (insertBy_sorted l); [exact Hc|assumption| |now apply IH].
      rewrite Forall_forall. intros y Hy. apply list_elem_of_In in Hy.
      apply (Permutation_in _ (sortBy_perm k)) in Hy.
      rewrite Forall_forall in H2. apply H2. now apply list_elem_of_In. }
    apply Hgen. rewrite Forall_forall. intros y Hy. now apply list_elem_of_In. }
  assert (Hs' : StronglySorted (fun a b => gt (cmp a b) 0 = false) (sortBy cmp l)).
  { clear - Hs. induction Hs as [|a k _ IH Hall]; constructor; [exact IH|].
    eapply Forall_impl; [exact Hall|]. intros b. unfold notAfter.
    now destruct (gt (cmp a b) 0). }
  split; [exact Hs'|].
  intros best x Hbest Hx. pose proof (sortBy_perm l) as Hp.
  destruct (sortBy cmp l) as [|h rest]; [discriminate|].
  injection Hbest as ->. inversion Hs' as [|? ? _ Hall]; subst.
  apply (Permutation_in _ (Permutation_sym Hp)) in Hx.
  destruct Hx as [<-|Hx].
  - destruct (consistentOn_spec l Hc) as [Hasym _].
    assert (Hb : In best l) by (apply (Permutation_in _ Hp); now left).
    destruct (notAfter cmp best best) eqn:E.
    + unfold notAfter in E. now destruct (gt (cmp best best) 0).
    + pose proof (Hasym best best Hb Hb E). congruence.
  - rewrite Forall_forall in Hall. apply Hall. now apply list_elem_of_In.
Qed.

End Sorting.

Section Feed.
Variable cfg : env.
Variable parseFloat : string -> float.

(** *** Depth *)

Lemma addSizes_sum levels acc :
  addSizes cfg parseFloat levels acc
  = fold_left (fun total sz => (total + sz)%float)
      (List.filter (fun sz => negb (isNaN sz))
         (map (fun lvl => parseFloat (size lvl))
              (take (Z.to_nat (POLY_DEPTH_LEVELS cfg)) levels)))
      acc.
Proof.
  unfold addSizes.
  generalize (take (Z.to_nat (POLY_DEPTH_LEVELS cfg)) levels). intros l.
  revert acc. induction l as [|x l IH]; intros acc; simpl; [reflexivity|].
  destruct (negb (isNaN (parseFloat (size x)))); simpl; apply IH.
Qed.

(** X13 (depth).  [calculateDepth] is the binary64 sum, bids first and
    then asks, of the sizes that parse to a number among the first
    [POLY_DEPTH_LEVELS] levels of each side; a size that parses to NaN is
    skipped; levels beyond the first [POLY_DEPTH_LEVELS] of a side never
    count; and sides shorter than that are summed in full. *)
Theorem depth_counts_parsed_sizes_of_top_levels sortedBids sortedAsks :
  let n := Z.to_nat (POLY_DEPTH_LEVELS cfg) in
  let sizes (levels : list PolyOrderbookLevel) :=
    List.filter (fun sz => negb (isNaN sz))
                (map (fun lvl => parseFloat (size lvl)) (take n levels)) in
  calculateDepth cfg parseFloat sortedBids sortedAsks
  = fold_left (fun total sz => (total + sz)%float)
      (sizes sortedBids ++ sizes sortedAsks) 0%float
  /\ (forall moreBids moreAsks,
        (n <= length sortedBids)%nat -> (n <= length sortedAsks)%nat ->
        calculateDepth cfg parseFloat (sortedBids ++ moreBids) (sortedAsks ++ moreAsks)
        = calculateDepth cfg parseFloat sortedBids sortedAsks)
  /\ ((length sortedBids <= n)%nat -> (length sortedAsks <= n)%nat ->
      calculateDepth cfg parseFloat sortedBids sortedAsks
      = fold_left (fun total sz => (total + sz)%float)
          (List.filter (fun sz => negb (isNaN sz))
             (map (fun lvl => parseFloat (size lvl)) (sortedBids ++ sortedAsks)))
          0%float).
Proof.
  intros n sizes. subst sizes. unfold calculateDepth.
  rewrite !addSizes_sum. fold n. split; [now rewrite fold_left_app|]. split.
  - intros moreBids moreAsks Hb Ha. rewrite !addSizes_sum. fold n.
    now rewrite !take_app_le by assumption.
  - intros Hb Ha. rewrite !take_ge by assumption.
    now rewrite map_app, List.filter_app, fold_left_app.
Qed.

(** *** The metrics of the picker and the feed's normalization *)

Lemma sumSizes_addSizes levels acc :
  sumSizes parseFloat (POLY_DEPTH_LEVELS cfg) levels acc
  = addSizes cfg parseFloat levels acc.
Proof. reflexivity. Qed.

(** X14 (the two normalizations agree).  On the bids and asks of a book,
    [calculateOrderbookMetrics] with [POLY_DEPTH_LEVELS] levels is valid
    exactly when the feed's [normalizeOrderbook] returns data, and then
    reports the same best bid, best ask, mid price, spread and depth, with
    the level counts of the book; otherwise it is invalid with mid price,
    spread and depth 0. *)
Theorem metrics_agree_with_normalization token now orderbook :
  let m := calculateOrderbookMetrics parseFloat token (bids orderbook)
             (asks orderbook) (POLY_DEPTH_LEVELS cfg) in
  match fst (normalizeOrderbook cfg parseFloat now orderbook) with
  | Some md =>
      valid m = true /\ error m = None
      /\ Metrics.bestBid m = Poly.bestBid md
      /\ Metrics.bestAsk m = Poly.bestAsk md
      /\ Metrics.midPrice m = Poly.midPrice md
      /\ Metrics.spreadBps m = Poly.spreadBps md
      /\ Metrics.depthTopN m = Poly.depthTopN md
      /\ bidLevels m = length (bids orderbook)
      /\ askLevels m = length (asks orderbook)
  | None =>
      valid m = false
      /\ Metrics.midPrice m = 0%float /\ Metrics.spreadBps m = 0%float
      /\ Metrics.depthTopN m = 0%float
  end.
Proof.
  intros m. subst m.
  unfold calculateOrderbookMetrics, normalizeOrderbook.
  destruct (bids orderbook) as [|b0 bs] eqn:Eb; [simpl; auto|].
  destruct (asks orderbook) as [|a0 az] eqn:Ea; [simpl; auto|].
  unfold sortBidsDesc, sortAsksAsc.
  set (sb := sortBy _ (b0 :: bs)). set (sa := sortBy _ (a0 :: az)).
  destruct (isNaN (parseFloat (price (hd b0 sb)))
            || isNaN (parseFloat (price (hd a0 sa)))
            || le (parseFloat (price (hd b0 sb))) 0
            || le (parseFloat (price (hd a0 sa))) 0); simpl; [auto|].
  repeat split.
  - subst sb. apply (Permutation_length (sortBy_perm _ (b0 :: bs))).
  - subst sa. apply (Permutation_length (sortBy_perm _ (a0 :: az))).
Qed.

(** *** The client in front of [poll] *)

(** X15 (client failures are poll errors).  [PolyClient.getOrderbook]
    never rejects: a call of the CLOB client that throws, or returns
    nothing, resolves to [null], and a missing side becomes an empty one.
    A poll that gets such a reply (thrown, empty, or a side missing or
    without levels) ends as a poll error: one more consecutive error, the
    backoff min(base * 2^(errors - 1), 30000), and [inFlight] cleared. *)
Theorem client_failures_are_poll_errors reply now w :
  (exists orderbook, fetched reply = Resolved orderbook)
  /\ (unusable reply = true ->
      consecutiveErrors (feed (poll_resume cfg parseFloat now (fetched reply) w))
      = S (consecutiveErrors (feed w))
      /\ currentBackoffMs (feed (poll_resume cfg parseFloat now (fetched reply) w))
         = Z.min (POLY_SNAPSHOT_INTERVAL_MS cfg
                  * 2 ^ (Z.of_nat (S (consecutiveErrors (feed w))) - 1)) 30000
      /\ inFlight (feed (poll_resume cfg parseFloat now (fetched reply) w)) = false).
Proof.
  split; [unfold fetched; eauto|].
  intros Hbad. unfold fetched.
  destruct reply as [|[b|]]; cbn [getOrderbook fst unusable] in *.
  - unfold poll_resume. simpl.
    destruct (handlePollError_feed cfg w) as (-> & _ & _). auto.
  - rewrite poll_resume_book.
    assert (Hn : fst (normalizeOrderbook cfg parseFloat now
                   {| bids := default [] (clob_bids b);
                      asks := default [] (clob_asks b) |}) = None).
    { unfold normalizeOrderbook. simpl.
      destruct (clob_bids b) as [[|? ?]|]; simpl; try reflexivity;
        destruct (clob_asks b) as [[|? ?]|]; simpl; try reflexivity.
      discriminate. }
    rewrite Hn. auto.
  - unfold poll_resume. simpl.
    destruct (handlePollError_feed cfg w) as (-> & _ & _). auto.
Qed.

End Feed.

Lemma sorted_side_keeps_levels_in_order_witness :
  sortBidsDesc parseFloatLit (bids crossedBook) = [lvl "101" "3"; lvl "99" "5"]
  /\ StronglySorted
       (fun a b => gt (parseFloatLit (price b) - parseFloatLit (price a))%float 0
                   = false)
       (sortBidsDesc parseFloatLit (bids crossedBook))
  /\ length (sortAsksAsc parseFloatLit (asks crossedBook)) = 2%nat.
Proof.
  split; [reflexivity|]. split.
  - apply (sorted_side_keeps_levels_in_order
             (fun a b => (parseFloatLit (price b) - parseFloatLit (price a))%float)
             (bids crossedBook)).
    vm_compute. reflexivity.
  - apply (proj1 (proj2 (sorted_side_keeps_levels_in_order
             (fun a b => (parseFloatLit (price a) - parseFloatLit (price b))%float)
             (asks crossedBook)))).
Defined.

Lemma depth_counts_parsed_sizes_of_top_levels_witness :
  calculateDepth cfgDepth1 parseFloatLit
    [lvl "101" "3"; lvl "99" "5"] [lvl "100" "2"; lvl "102" "4"]
  = calculateDepth cfgDepth1 parseFloatLit [lvl "101" "3"] [lvl "100" "2"]
  /\ calculateDepth cfgDepth1 parseFloatLit [lvl "101" "x"] [lvl "100" "2"]
     = 2%float.
Proof.
  split.
  - apply (proj1 (proj2 (depth_counts_parsed_sizes_of_top_levels cfgDepth1
             parseFloatLit [lvl "101" "3"] [lvl "100" "2"]))
             [lvl "99" "5"] [lvl "102" "4"]); simpl; lia.
  - rewrite (proj2 (proj2 (depth_counts_parsed_sizes_of_top_levels cfgDepth1
               parseFloatLit [lvl "101" "x"] [lvl "100" "2"])));
      [reflexivity|simpl; lia|simpl; lia].
Defined.

Lemma client_failures_are_poll_errors_witness :
  consecutiveErrors
    (feed (poll_resume cfg5 parseFloatLit 0
             (fetched (ClobReturns
                (Some {| clob_bids := None; clob_asks := Some [lvl "1" "1"] |})))
             inFlightWorld)) = 1%nat
  /\ currentBackoffMs
       (feed (poll_resume cfg5 parseFloatLit 0 (fetched ClobThrows) inFlightWorld))
     = 5000.
Proof.
  split.
  - apply (proj2 (client_failures_are_poll_errors cfg5 parseFloatLit
             (ClobReturns
                (Some {| clob_bids := None; clob_asks := Some [lvl "1" "1"] |}))
             0 inFlightWorld)).
    reflexivity.
  - apply (proj2 (client_failures_are_poll_errors cfg5 parseFloatLit
             ClobThrows 0 inFlightWorld)).
    reflexivity.
Defined.

End PolyOrderProofs.

(** ** The polling loops: proofs *)

Module PolyLifeProofs.
Import JsNum Env Poly PolyProofs PolyOrder.
Local Open Scope Z_scope.

Section Feed.
Variable cfg : env.
Variable parseFloat : string -> float.

Local Abbreviation step := (Poly.step cfg parseFloat).
Local Abbreviation reachable := (Poly.reachable cfg parseFloat).

Lemma starts_logEvent ev w :
  starts (logEvent ev w) = (starts w + if isStarted ev then 1 else 0)%nat.
Proof.
  unfold starts, logEvent. simpl. rewrite List.filter_app, length_app. simpl.
  fold (isStarted ev). destruct (isStarted ev); reflexivity.
Qed.

Lemma starts_logEvents evs w :
  Forall (fun ev => isStarted ev = false) evs ->
  starts (fold_left (fun acc ev => logEvent ev acc) evs w) = starts w
  /\ timers (fold_left (fun acc ev => logEvent ev acc) evs w) = timers w
  /\ nextHandle (fold_left (fun acc ev => logEvent ev acc) evs w) = nextHandle w.
Proof.
  revert w. induction evs as [|e evs IH]; intros w H; [done|].
  inversion H; subst. simpl. destruct (IH (logEvent e w) H3) as (-> & -> & ->).
  rewrite starts_logEvent, H2. simpl. split; [lia|done].
Qed.

Lemma normalizeOrderbook_log now orderbook :
  Forall (fun ev => isStarted ev = false)
         (snd (normalizeOrderbook cfg parseFloat now orderbook)).
Proof.
  unfold normalizeOrderbook.
  destruct (bids orderbook); [repeat constructor|].
  destruct (asks orderbook); [repeat constructor|].
  match goal with |- context [if ?c then _ else _] => destruct c end;
    repeat constructor.
Qed.

Lemma handlePollError_rest w :
  starts (handlePollError cfg w) = starts w
  /\ timers (handlePollError cfg w) = timers w
  /\ nextHandle (handlePollError cfg w) = nextHandle w.
Proof.
  unfold handlePollError.
  destruct (1 <? S (consecutiveErrors (feed w)))%nat;
    rewrite ?starts_logEvent; simpl; unfold starts; simpl;
    repeat split; lia.
Qed.

(** What [poll_resume] leaves alone. *)
Lemma poll_resume_rest now r w :
  starts (poll_resume cfg parseFloat now r w) = starts w
  /\ timers (poll_resume cfg parseFloat now r w) = timers w
  /\ nextHandle (poll_resume cfg parseFloat now r w) = nextHandle w
  /\ isRunning (feed (poll_resume cfg parseFloat now r w)) = isRunning (feed w)
  /\ pollTimer (feed (poll_resume cfg parseFloat now r w)) = pollTimer (feed w).
Proof.
  unfold poll_resume.
  set (w1 := match r with Rejected => _ | Resolved _ => _ end).
  assert (H : starts w1 = starts w /\ timers w1 = timers w
              /\ nextHandle w1 = nextHandle w
              /\ isRunning (feed w1) = isRunning (feed w)
              /\ pollTimer (feed w1) = pollTimer (feed w)).
  { assert (He : forall w0, starts (handlePollError cfg w0) = starts w0
              /\ timers (handlePollError cfg w0) = timers w0
              /\ nextHandle (handlePollError cfg w0) = nextHandle w0
              /\ isRunning (feed (handlePollError cfg w0)) = isRunning (feed w0)
              /\ pollTimer (feed (handlePollError cfg w0)) = pollTimer (feed w0)).
    { intros w0. destruct (handlePollError_rest w0) as (-> & -> & ->).
      destruct (handlePollError_feed cfg w0) as (-> & _). simpl.
      repeat split. }
    subst w1. destruct r as [[ob|]|]; try apply He.
    pose proof (normalizeOrderbook_log now ob) as Hlg.
    destruct (normalizeOrderbook cfg parseFloat now ob) as [md lg].
    simpl in Hlg.
    destruct (starts_logEvents lg w Hlg) as (H1 & H2 & H3).
    destruct (logEvents_feed lg w) as (H4 & _).
    destruct md as [md|].
    - rewrite starts_logEvent. simpl. rewrite H2, H3, H4.
      unfold starts in *. simpl. repeat split. lia.
    - destruct (He (fold_left (fun acc ev => logEvent ev acc) lg w))
        as (-> & -> & -> & -> & ->).
      rewrite H1, H2, H3, H4. repeat split. }
  destruct H as (H1 & H2 & H3 & H4 & H5).
  unfold starts in *. simpl. repeat split; assumption.
Qed.

(** [schedulePoll] does nothing on a stopped feed, and sets one timer,
    kept in [pollTimer], on a running one. *)
Lemma schedulePoll_cases w :
  (isRunning (feed w) = false /\ schedulePoll cfg w = w)
  \/ (isRunning (feed w) = true
      /\ timers (schedulePoll cfg w)
         = timers w ++ [(nextHandle w,
                         if 0 <? currentBackoffMs (feed w)
                         then currentBackoffMs (feed w) else baseIntervalMs cfg)]
      /\ pollTimer (feed (schedulePoll cfg w)) = Some (nextHandle w)
      /\ isRunning (feed (schedulePoll cfg w)) = true
      /\ starts (schedulePoll cfg w) = starts w
      /\ pendingFetches (schedulePoll cfg w) = pendingFetches w).
Proof.
  unfold schedulePoll. destruct (isRunning (feed w)) eqn:E; simpl.
  - right. rewrite E. repeat split.
  - left. split; reflexivity.
Qed.

Lemma dropTimer_length h d w :
  (h, d) ∈ timers w ->
  (length (timers (dropTimer h w)) < length (timers w))%nat.
Proof.
  unfold dropTimer. simpl. intros Hin. apply list_elem_of_In in Hin.
  induction (timers w) as [|t l IH]; [destruct Hin|].
  simpl. destruct Hin as [->|Hin].
  - simpl. rewrite Nat.eqb_refl. simpl.
    pose proof (filter_length_le (fun t => negb (fst t =? h)%nat) l). lia.
  - specialize (IH Hin). destruct (negb (fst t =? h)%nat); simpl; lia.
Qed.

Lemma step_starts w w' : step w w' -> (starts w <= starts w')%nat.
Proof.
  intros Hs. destruct Hs as [w|w|w h d Hin|w now r Hpos].
  - unfold start. destruct (isRunning (feed w)).
    + rewrite starts_logEvent. simpl. lia.
    + match goal with |- context [schedulePoll cfg ?x] =>
        destruct (schedulePoll_cases x) as [[_ ->]|(_ & _ & _ & _ & -> & _)] end;
        rewrite starts_logEvent; simpl; unfold starts; simpl; lia.
  - unfold stop. rewrite starts_logEvent. simpl.
    destruct (pollTimer (feed w)); unfold starts; simpl; lia.
  - unfold timerFires, poll_begin. simpl.
    destruct (inFlight (feed w)).
    + match goal with |- context [schedulePoll cfg ?x] =>
        destruct (schedulePoll_cases x) as [[_ ->]|(_ & _ & _ & _ & -> & _)] end;
        rewrite starts_logEvent; simpl; unfold starts; simpl; lia.
    + unfold starts. simpl. lia.
  - unfold fetchSettles.
    match goal with |- context [schedulePoll cfg ?x] =>
      destruct (schedulePoll_cases x) as [[_ ->]|(_ & _ & _ & _ & -> & _)] end;
      match goal with |- context [poll_resume cfg parseFloat now r ?x] =>
        destruct (poll_resume_rest now r x) as (-> & _) end;
      unfold starts; simpl; lia.
Qed.

Lemma step_loops_counted w w' :
  step w w' -> loops_counted w -> loops_counted w'.
Proof.
  unfold loops_counted. intros Hs Hk.
  destruct Hs as [w|w|w h d Hin|w now r Hpos].
  - unfold start. destruct (isRunning (feed w)).
    + rewrite starts_logEvent. simpl. lia.
    + match goal with |- context [schedulePoll cfg ?x] =>
        destruct (schedulePoll_cases x)
          as [[_ ->]|(_ & -> & _ & _ & -> & ->)] end;
        rewrite starts_logEvent; simpl; rewrite ?length_app; simpl;
        unfold starts in *; simpl in *; lia.
  - unfold stop. rewrite starts_logEvent. simpl.
    destruct (pollTimer (feed w)) as [h|]; simpl; [|unfold starts in *; simpl; lia].
    unfold starts in *. simpl.
    pose proof (filter_length_le (fun t => negb (fst t =? h)%nat) (timers w)). lia.
  - pose proof (dropTimer_length h d w Hin) as Hlt.
    unfold timerFires, poll_begin.
    change (inFlight (feed (dropTimer h w))) with (inFlight (feed w)).
    destruct (inFlight (feed w)).
    + match goal with |- context [schedulePoll cfg ?x] =>
        destruct (schedulePoll_cases x)
          as [[_ ->]|(_ & -> & _ & _ & -> & ->)] end;
        rewrite starts_logEvent; simpl in *; rewrite ?length_app; simpl;
        unfold starts in *; simpl in *; lia.
    + unfold starts in *. simpl in *. lia.
  - unfold fetchSettles.
    match goal with |- context [schedulePoll cfg (poll_resume cfg parseFloat now r ?x)] =>
      destruct (poll_resume_rest now r x) as (R1 & R2 & R3 & R4 & R5);
      destruct (poll_resume_frame cfg parseFloat now r x) as (_ & R6);
      destruct (schedulePoll_cases (poll_resume cfg parseFloat now r x))
        as [[_ ->]|(_ & -> & _ & _ & -> & ->)] end;
      rewrite ?length_app, ?R1, ?R2, ?R6; unfold starts in *; simpl in *; lia.
Qed.

Lemma step_timer_is_pollTimer w w' :
  step w w' -> loops_counted w -> timer_is_pollTimer w ->
  timer_is_pollTimer w'.
Proof.
  intros Hs Hk Hi H1.
  pose proof (step_starts w w' Hs) as Hmono.
  pose proof (step_loops_counted w w' Hs Hk) as Hk'.
  unfold loops_counted in Hk, Hk'.
  assert (Hi' := Hi ltac:(lia)). clear Hi.
  assert (Hone : forall (w1 : World) t, In t (timers w1) ->
            (length (timers w1) <= 1)%nat ->
            forall x, last (timers w1) = Some x -> t = x).
  { intros w1 t Ht Hlen x Hx. destruct (timers w1) as [|a [|b l]].
    - destruct Ht.
    - injection Hx as <-. destruct Ht as [->|[]]. reflexivity.
    - simpl in Hlen. lia. }
  destruct Hs as [w|w|w h d Hin|w now r Hpos].
  - unfold start in *. destruct (isRunning (feed w)); [exact Hi'|].
    match goal with |- context [schedulePoll cfg ?x] =>
      destruct (schedulePoll_cases x)
        as [[Hr _]|(_ & Ht & Hp & _ & _ & _)] end; [discriminate Hr|].
    intros t Hin. rewrite Hp. f_equal.
    eapply Hone in Hin; [|lia|rewrite Ht; apply last_snoc].
    rewrite Hin. reflexivity.
  - unfold stop. simpl. destruct (pollTimer (feed w)) as [h|] eqn:Ep; simpl.
    + intros t Hin. apply filter_In in Hin as [Hin Hne].
      specialize (Hi' t Hin). injection Hi' as ->.
      rewrite Nat.eqb_refl in Hne. discriminate.
    + intros t Hin. specialize (Hi' t Hin). discriminate.
  - assert (Hd : timers (dropTimer h w) = []).
    { pose proof (dropTimer_length h d w Hin).
      destruct (timers (dropTimer h w)); [reflexivity|simpl in *; lia]. }
    unfold timerFires, poll_begin in *.
    change (inFlight (feed (dropTimer h w))) with (inFlight (feed w)) in *.
    destruct (inFlight (feed w)).
    + match goal with |- context [schedulePoll cfg ?x] =>
        destruct (schedulePoll_cases x)
          as [[_ Hx]|(_ & Ht & Hp & _ & _ & _)] end.
      * rewrite Hx. unfold dropTimer in *. simpl in *. rewrite Hd.
        intros t [].
      * intros t Ht'. rewrite Hp. f_equal.
        eapply Hone in Ht'; [|lia|rewrite Ht; apply last_snoc].
        rewrite Ht'. reflexivity.
    + unfold dropTimer in *. simpl in *. rewrite Hd. intros t [].
  - assert (Hd : timers w = [])
      by (destruct (timers w); [reflexivity|simpl in *; lia]).
    unfold fetchSettles in *.
    match goal with |- context [schedulePoll cfg (poll_resume cfg parseFloat now r ?x)] =>
      destruct (poll_resume_rest now r x) as (R1 & R2 & R3 & R4 & R5);
      destruct (schedulePoll_cases (poll_resume cfg parseFloat now r x))
        as [[_ Hx]|(_ & Ht & Hp & _ & _ & _)] end.
    + rewrite Hx, R2. simpl. rewrite Hd. intros t [].
    + intros t Ht'. rewrite Hp. f_equal.
      eapply Hone in Ht'; [|lia|rewrite Ht; apply last_snoc].
      rewrite Ht'. reflexivity.
Qed.

Lemma reachable_loops w :
  reachable w -> loops_counted w /\ timer_is_pollTimer w.
Proof.
  intros Hr.
  refine (rtc_ind_r (fun w => loops_counted w /\ timer_is_pollTimer w)
            init _ _ w Hr).
  - split; [unfold loops_counted; simpl; lia|intros _ t []].
  - intros w1 w2 _ Hs [IH1 IH2]. split.
    + eapply step_loops_counted; eassumption.
    + eapply step_timer_is_pollTimer; eassumption.
Qed.

(** After [stop]: as long as the feed is not started again, it stays
    stopped, without timers, and starts no fetch. *)
Lemma quiet_after_stop (s0 p0 : nat) w w' :
  rtc step w w' ->
  isRunning (feed w) = false -> timers w = [] ->
  starts w = s0 -> (pendingFetches w <= p0)%nat ->
  starts w' = s0 ->
  isRunning (feed w') = false /\ timers w' = []
  /\ (pendingFetches w' <= p0)%nat.
Proof.
  intros Hr. induction Hr as [w|w w1 w2 Hs Hr IH]; intros Hrun Ht Hs0 Hp Hend;
    [auto|].
  assert (Hmid : starts w1 = s0).
  { pose proof (step_starts w w1 Hs).
    assert (starts w1 <= starts w2)%nat.
    { clear - Hr. induction Hr as [|a b c Hab Hbc IHr]; [lia|].
      pose proof (step_starts a b Hab). lia. }
    lia. }
  apply IH; try assumption; clear IH Hr Hend.
  - destruct Hs as [w|w|w h d Hin|w now r Hpos].
    + unfold start in *. rewrite Hrun in *.
      match type of Hmid with context [schedulePoll cfg ?x] =>
        destruct (schedulePoll_cases x)
          as [[_ Hx]|(_ & _ & _ & _ & Hx & _)] end;
        rewrite Hx, starts_logEvent in Hmid; simpl in Hmid;
        unfold starts in *; simpl in *; lia.
    + unfold stop. simpl. destruct (pollTimer (feed w)); reflexivity.
    + rewrite Ht in Hin. apply list_elem_of_In in Hin. destruct Hin.
    + unfold fetchSettles.
      match goal with |- context [schedulePoll cfg (poll_resume cfg parseFloat now r ?x)] =>
        destruct (poll_resume_rest now r x) as (R1 & R2 & R3 & R4 & R5);
        destruct (schedulePoll_cases (poll_resume cfg parseFloat now r x))
          as [[_ Hx]|(Hx & _)] end.
      * rewrite Hx, R4. exact Hrun.
      * rewrite R4 in Hx. simpl in Hx. congruence.
  - destruct Hs as [w|w|w h d Hin|w now r Hpos].
    + unfold start in *. rewrite Hrun in *.
      match type of Hmid with context [schedulePoll cfg ?x] =>
        destruct (schedulePoll_cases x)
          as [[_ Hx]|(_ & _ & _ & _ & Hx & _)] end;
        rewrite Hx, starts_logEvent in Hmid; simpl in Hmid;
        unfold starts in *; simpl in *; lia.
    + unfold stop. simpl. destruct (pollTimer (feed w)); simpl; rewrite Ht;
        reflexivity.
    + rewrite Ht in Hin. apply list_elem_of_In in Hin. destruct Hin.
    + unfold fetchSettles.
      match goal with |- context [schedulePoll cfg (poll_resume cfg parseFloat now r ?x)] =>
        destruct (poll_resume_rest now r x) as (R1 & R2 & R3 & R4 & R5);
        destruct (schedulePoll_cases (poll_resume cfg parseFloat now r x))
          as [[_ Hx]|(Hx & _)] end.
      * rewrite Hx, R2. exact Ht.
      * rewrite R4 in Hx. simpl in Hx. congruence.
  - destruct Hs as [w|w|w h d Hin|w now r Hpos].
    + destruct (start_frame cfg w) as [_ ->]. exact Hp.
    + destruct (stop_frame w) as [_ ->]. exact Hp.
    + rewrite Ht in Hin. apply list_elem_of_In in Hin. destruct Hin.
    + unfold fetchSettles.
      match goal with |- context [schedulePoll cfg (poll_resume cfg parseFloat now r ?x)] =>
        destruct (schedulePoll_frame cfg (poll_resume cfg parseFloat now r x))
          as (_ & -> & _);
        destruct (poll_resume_frame cfg parseFloat now r x) as (_ & ->) end.
      simpl. lia.
Qed.

(** X16 (stop ends the polling loop).  On a feed that was started at
    most once, at most one timer or fetch is pending; [stop] leaves no
    timer pending; and as long as the feed is not started again, whatever
    happens next (a fetch still in flight settling, [stop] again), it stays
    stopped, no timer is set and no fetch is started. *)
Theorem stop_ends_a_feed_started_once w w' :
  reachable w ->
  (starts w <= 1)%nat ->
  rtc step (stop w) w' ->
  starts w' = starts w ->
  (length (timers w) + pendingFetches w <= 1)%nat
  /\ timers (stop w) = []
  /\ isRunning (feed w') = false
  /\ timers w' = []
  /\ (pendingFetches w' <= pendingFetches w)%nat.
Proof.
  intros Hr H1 Hrun Hend.
  destruct (reachable_loops w Hr) as [Hk Hi].
  unfold loops_counted in Hk. split; [lia|].
  assert (Hstop : timers (stop w) = []).
  { specialize (Hi H1). unfold stop. simpl.
    destruct (pollTimer (feed w)) as [h|] eqn:Ep; simpl.
    - destruct (List.filter (fun t => negb (fst t =? h)%nat) (timers w))
        as [|t l] eqn:Ef; [reflexivity|].
      assert (Hin : In t (List.filter (fun t => negb (fst t =? h)%nat) (timers w)))
        by (rewrite Ef; now left).
      apply filter_In in Hin as [Hin Hne]. specialize (Hi t Hin).
      injection Hi as ->. rewrite Nat.eqb_refl in Hne. discriminate.
    - destruct (timers w) as [|t l]; [reflexivity|].
      specialize (Hi t (or_introl eq_refl)). discriminate. }
  split; [exact Hstop|].
  assert (Hss : starts (stop w) = starts w).
  { unfold stop. rewrite starts_logEvent. simpl.
    destruct (pollTimer (feed w)); unfold starts; simpl; lia. }
  apply (quiet_after_stop (starts w) (pendingFetches w) (stop w) w' Hrun);
    try assumption.
  - unfold stop. simpl. destruct (pollTimer (feed w)); reflexivity.
  - destruct (stop_frame w) as [_ ->]. lia.
Qed.

(** X17 (the delay of the next poll).  When a fetch settles on a running
    feed with a positive base interval, exactly one timer is set: with the
    base interval after a book that normalizes, and with
    min(base * 2^n, 30000) after any failure, [n] being the consecutive
    errors before it.  That delay is positive and at most the larger of
    the base interval and 30 s, does not decrease as errors accumulate,
    and is 30 s after a failure when the base interval is 30 s or more. *)
Theorem next_poll_delay now r w :
  isRunning (feed w) = true ->
  0 < POLY_SNAPSHOT_INTERVAL_MS cfg ->
  let n := consecutiveErrors (feed w) in
  let base := POLY_SNAPSHOT_INTERVAL_MS cfg in
  let failed :=
    match r with
    | Resolved (Some orderbook) =>
        match fst (normalizeOrderbook cfg parseFloat now orderbook) with
        | Some _ => false
        | None => true
        end
    | _ => true
    end in
  let delay := if failed then Z.min (base * 2 ^ Z.of_nat n) 30000 else base in
  timers (fetchSettles cfg parseFloat now r w) = timers w ++ [(nextHandle w, delay)]
  /\ 0 < delay <= Z.max base 30000
  /\ Z.min (base * 2 ^ Z.of_nat n) 30000 <= Z.min (base * 2 ^ Z.of_nat (S n)) 30000
  /\ (30000 <= base -> failed = true -> delay = 30000).
Proof.
  intros Hrun Hbase n base failed delay.
  assert (Hpow : 0 < 2 ^ Z.of_nat n) by (apply Z.pow_pos_nonneg; lia).
  assert (Hpow2 : 2 ^ Z.of_nat (S n) = 2 * 2 ^ Z.of_nat n).
  { rewrite Nat2Z.inj_succ, Z.pow_succ_r by lia. reflexivity. }
  assert (Hge : base <= base * 2 ^ Z.of_nat n) by nia.
  split; [|subst delay; destruct failed; repeat split; try intros; try lia; try nia].
  unfold fetchSettles.
  set (w0 := {| feed := feed w; timers := timers w; nextHandle := nextHandle w;
                pendingFetches := Nat.pred (pendingFetches w); log := log w |}).
  destruct (poll_resume_rest now r w0) as (_ & R2 & R3 & R4 & _).
  destruct (schedulePoll_cases (poll_resume cfg parseFloat now r w0))
    as [[Hx _]|(_ & -> & _)]; [rewrite R4 in Hx; simpl in Hx; congruence|].
  assert (Hmin : Z.min (baseIntervalMs cfg * 2 ^ (Z.of_nat (S n) - 1)) maxBackoffMs
                 = Z.min (base * 2 ^ Z.of_nat n) 30000).
  { unfold baseIntervalMs, maxBackoffMs. fold base.
    replace (Z.of_nat (S n) - 1) with (Z.of_nat n) by lia. reflexivity. }
  assert (Hcb : currentBackoffMs (feed (poll_resume cfg parseFloat now r w0))
                = if failed then Z.min (base * 2 ^ Z.of_nat n) 30000 else 0).
  { subst failed. destruct r as [[ob|]|].
    - rewrite poll_resume_book.
      destruct (fst (normalizeOrderbook cfg parseFloat now ob));
        [reflexivity|exact Hmin].
    - unfold poll_resume.
      destruct (handlePollError_feed cfg w0) as (Hf & _).
      cbn [feed withFeed currentBackoffMs]. rewrite Hf. exact Hmin.
    - unfold poll_resume.
      destruct (handlePollError_feed cfg w0) as (Hf & _).
      cbn [feed withFeed currentBackoffMs]. rewrite Hf. exact Hmin. }
  rewrite R2, R3, Hcb. subst delay w0. cbn [timers nextHandle].
  do 3 f_equal. unfold baseIntervalMs. fold base.
  destruct failed; [|reflexivity].
  destruct (0 <? Z.min (base * 2 ^ Z.of_nat n) 30000) eqn:E; [reflexivity|].
  apply Z.ltb_ge in E. lia.
Qed.

(** X18 (polling loops are bounded by starts).  On every world the feed
    can reach, the pending timers and fetches together are at most as many
    as the times the feed was started, at most one fetch is pending, and a
    running feed was started at least once.  The bound is reached: a feed
    stopped and started again while a poll is in flight has two timers
    pending once that poll settles. *)
Theorem loops_bounded_by_starts w :
  reachable w ->
  (length (timers w) + pendingFetches w <= starts w)%nat
  /\ (pendingFetches w <= 1)%nat
  /\ (isRunning (feed w) = true -> (1 <= starts w)%nat).
Proof.
  intros Hr. split; [apply (reachable_loops w Hr)|]. split.
  - pose proof (in_flight_inv_reachable cfg parseFloat w Hr) as Hi.
    unfold in_flight_inv in Hi. destruct (inFlight (feed w)); lia.
  - refine (rtc_ind_r (fun w => isRunning (feed w) = true -> (1 <= starts w)%nat)
              init _ _ w Hr); [discriminate|].
    intros w1 w2 _ Hs IH Hrun. pose proof (step_starts w1 w2 Hs) as Hmono.
    destruct (isRunning (feed w1)) eqn:E; [specialize (IH eq_refl); lia|].
    clear IH Hr. destruct Hs as [w0|w0|w0 h d Hin|w0 now r Hpos].
    + unfold start in *. rewrite E in *.
      match goal with |- context [schedulePoll cfg ?x] =>
        destruct (schedulePoll_cases x)
          as [[_ Hx]|(_ & _ & _ & _ & Hx & _)] end;
        rewrite Hx, starts_logEvent; simpl; lia.
    + unfold stop in Hrun. simpl in Hrun. discriminate.
    + unfold timerFires, poll_begin in Hrun.
      change (inFlight (feed (dropTimer h w0))) with (inFlight (feed w0)) in Hrun.
      destruct (inFlight (feed w0)).
      * match type of Hrun with context [schedulePoll cfg ?x] =>
          destruct (schedulePoll_cases x) as [[_ Hx]|(Hx & _)] end;
          [rewrite Hx in Hrun|]; simpl in *; congruence.
      * simpl in Hrun. congruence.
    + unfold fetchSettles in Hrun.
      match type of Hrun with context [schedulePoll cfg (poll_resume cfg parseFloat now r ?x)] =>
        destruct (poll_resume_rest now r x) as (_ & _ & _ & R4 & _);
        destruct (schedulePoll_cases (poll_resume cfg parseFloat now r x))
          as [[_ Hx]|(Hx & _)] end;
        [rewrite Hx in Hrun|]; simpl in *; congruence.
Qed.

End Feed.

Lemma inFlightWorld_reachable : Poly.reachable cfg5 parseFloatLit inFlightWorld.
Proof.
  unfold Poly.reachable, inFlightWorld.
  eapply rtc_r; [apply rtc_once, step_start|].
  apply (step_timer cfg5 parseFloatLit _ 0%nat 5000). vm_compute. constructor.
Qed.

Lemma stop_ends_a_feed_started_once_witness :
  timers (stop inFlightWorld) = []
  /\ pendingFetches (stop inFlightWorld) = 1%nat
  /\ timers (fetchSettles cfg5 parseFloatLit 0 Rejected (stop inFlightWorld)) = []
  /\ isRunning (feed (fetchSettles cfg5 parseFloatLit 0 Rejected (stop inFlightWorld)))
     = false.
Proof.
  destruct (stop_ends_a_feed_started_once cfg5 parseFloatLit inFlightWorld
              (fetchSettles cfg5 parseFloatLit 0 Rejected (stop inFlightWorld))
              inFlightWorld_reachable
              ltac:(vm_compute; lia)
              (rtc_once _ _ (step_settle cfg5 parseFloatLit (stop inFlightWorld)
                               0 Rejected ltac:(vm_compute; lia)))
              eq_refl)
    as (_ & H1 & H2 & H3 & _).
  split; [exact H1|]. split; [reflexivity|]. split; [exact H3|exact H2].
Defined.

Lemma next_poll_delay_witness :
  timers (fetchSettles cfg5 parseFloatLit 0 Rejected inFlightWorld)
  = [(1%nat, 5000)]
  /\ timers (fetchSettles cfg5 parseFloatLit 0 Rejected
               (timerFires cfg5 1
                  (fetchSettles cfg5 parseFloatLit 0 Rejected inFlightWorld)))
     = [(2%nat, 10000)].
Proof.
  split.
  - destruct (next_poll_delay cfg5 parseFloatLit 0 Rejected inFlightWorld
                eq_refl ltac:(vm_compute; reflexivity)) as (H & _).
    exact H.
  - destruct (next_poll_delay cfg5 parseFloatLit 0 Rejected
                (timerFires cfg5 1
                   (fetchSettles cfg5 parseFloatLit 0 Rejected inFlightWorld))
                eq_refl ltac:(vm_compute; reflexivity)) as (H & _).
    exact H.
Defined.

Lemma loops_bounded_by_starts_witness :
  (length (timers (fetchSettles cfg5 parseFloatLit 0 Rejected restartedWorld))
   + pendingFetches (fetchSettles cfg5 parseFloatLit 0 Rejected restartedWorld)
   <= starts (fetchSettles cfg5 parseFloatLit 0 Rejected restartedWorld))%nat
  /\ length (timers (fetchSettles cfg5 parseFloatLit 0 Rejected restartedWorld))
     = 2%nat.
Proof.
  split; [|reflexivity].
  apply (loops_bounded_by_starts cfg5 parseFloatLit).
  eapply rtc_r; [exact restartedWorld_reachable|].
  apply step_settle. vm_compute. lia.
Defined.

End PolyLifeProofs.

(** ** The logger: proofs *)

Module LoggerProofs.
Import Logger.
Local Open Scope nat_scope.

Section Sink.
Context {E : Type}.
Variable LOG_LEVEL : LogLevel.
Variable LOG_TO_FILE : bool.

Local Abbreviation passes := (passes (E:=E) LOG_LEVEL).
Local Abbreviation appended := (appended (E:=E) LOG_LEVEL LOG_TO_FILE).
Local Abbreviation failed := (failed (E:=E) LOG_LEVEL LOG_TO_FILE).

Lemma logAll_from (s : Sink E) entries :
  let s' := fold_left (logEvent LOG_LEVEL LOG_TO_FILE) entries s in
  console s' = console s ++ map line (List.filter passes entries)
  /\ file s' = file s ++ map line (List.filter appended entries)
  /\ writeErrors s' = writeErrors s + length (List.filter failed entries).
Proof.
  revert s. induction entries as [|e entries IH]; intros s; simpl.
  - rewrite !app_nil_r. repeat split. lia.
  - destruct (IH (logEvent LOG_LEVEL LOG_TO_FILE s e)) as (-> & -> & ->).
    unfold logEvent, appended, failed, passes.
    destruct (shouldLog LOG_LEVEL (level e)); simpl; [|repeat split].
    destruct LOG_TO_FILE; simpl.
    + destruct (appendFails e); simpl; rewrite <- ?app_assoc; repeat split; lia.
    + rewrite <- ?app_assoc. repeat split.
Qed.


End Sink.


Section Engine.
Import Env Strategy EngineCalls.
Variable cfg : env.

Lemma emitted_app {E} (levelOf : E -> LogLevel) c (l1 l2 : list E) :
  emitted levelOf c (l1 ++ l2) = emitted levelOf c l1 ++ emitted levelOf c l2.
Proof. apply List.filter_app. Qed.

Lemma call_emitted c st k :
  emitted arbLevel c (snd (call cfg st k))
  = match c with
    | debug => snd (call cfg st k)
    | info | warn => map arb_signal (signals (snd (call cfg st k)))
    | error => []
    end.
Proof.
  destruct k as [now s|now sym p m d]; simpl.
  - unfold updatePolySnapshot. destruct c; reflexivity.
  - unfold processSpotMove, logDiscard, emitSignal.
    destruct (getLatestPolySnapshot st); [|destruct c; reflexivity].
    repeat match goal with
           | |- context [if ?b then _ else _] => destruct b
           end; destruct c; reflexivity.
Qed.

(** X20 (what the engine's log shows).  Of everything a sequence of
    engine calls logs, [LOG_LEVEL] debug emits all, info and warn emit
    exactly the signals, in order, and error emits nothing: discards and
    snapshot updates are visible at debug only, and at error a signal
    leaves no line although it starts the cooldown. *)
Theorem engine_output_by_log_level (LOG_LEVEL : LogLevel) st calls :
  let log := snd (runCalls cfg st calls) in
  emitted arbLevel LOG_LEVEL log
  = match LOG_LEVEL with
    | debug => log
    | info | warn => map arb_signal (signals log)
    | error => []
    end.
Proof.
  revert st. induction calls as [|k calls IH]; intros st; simpl.
  - destruct LOG_LEVEL; reflexivity.
  - pose proof (call_emitted LOG_LEVEL st k) as Hk.
    destruct (call cfg st k) as [st1 log1]. specialize (IH st1).
    destruct (runCalls cfg st1 calls) as [st2 log2]. simpl in *.
    rewrite emitted_app, Hk, IH.
    destruct LOG_LEVEL; try reflexivity;
      unfold signals; rewrite flat_map_app, map_app; reflexivity.
Qed.

End Engine.
End LoggerProofs.

(** ** The market picker's batches: proofs *)

Module PickerProofs.
Import Picker.
Local Open Scope Z_scope.

Section Batch.
Context {T R : Type}.
Variable processor : T -> R.

Lemma slice_forward (items : list T) (i c : Z) :
  0 <= i -> 0 < c ->
  take (Z.to_nat i) items ++ slice items i (i + c) = take (Z.to_nat (i + c)) items.
Proof.
  intros Hi Hc. unfold slice.
  destruct (i <? 0) eqn:E1; [apply Z.ltb_lt in E1; lia|].
  destruct (i + c <? 0) eqn:E2; [apply Z.ltb_lt in E2; lia|].
  set (len := Z.of_nat (length items)).
  destruct (Z.le_gt_cases len i) as [Hge|Hlt].
  - rewrite Z.min_r by lia. rewrite Z.min_r by lia.
    rewrite Z.sub_diag. simpl. rewrite app_nil_r.
    rewrite !take_ge by (subst len; lia). reflexivity.
  - rewrite (Z.min_l i) by lia.
    rewrite take_take_drop. 
    destruct (Z.le_gt_cases (i + c) len) as [Hle|Hgt].
    + rewrite Z.min_l by lia. f_equal. lia.
    + rewrite Z.min_r by lia.
      rewrite !take_ge by (subst len; lia). reflexivity.
Qed.

Lemma processBatch_from_forward (items : list T) (c : Z) :
  0 < c ->
  forall fuel i,
    0 <= i ->
    (Z.to_nat (Z.of_nat (length items) - i) < fuel)%nat ->
    processBatch_from fuel items processor c i
      (map processor (take (Z.to_nat i) items))
    = Some (map processor items).
Proof.
  intros Hc fuel. induction fuel as [|fuel IH]; intros i Hi Hfuel; [lia|].
  simpl. destruct (i <? Z.of_nat (length items)) eqn:E.
  - apply Z.ltb_lt in E. rewrite <- map_app, slice_forward by assumption.
    apply IH; lia.
  - apply Z.ltb_ge in E. rewrite take_ge by lia. reflexivity.
Qed.

Lemma processBatch_from_stuck (items : list T) (c : Z) :
  c <= 0 -> items <> [] ->
  forall fuel i results, i <= 0 ->
    processBatch_from fuel items processor c i results = None.
Proof.
  intros Hc Hne fuel. induction fuel as [|fuel IH]; intros i results Hi;
    [reflexivity|].
  simpl. destruct (i <? Z.of_nat (length items)) eqn:E.
  - apply IH. lia.
  - apply Z.ltb_ge in E. destruct items; [contradiction|simpl in E; lia].
Qed.

(** X21 (batches keep the order).  With a positive concurrency,
    [processBatch] returns, for every list of items, the results of the
    processor in the order of the items, each item processed once, after
    at most one turn of its loop per item.  With a concurrency of 0 or
    less and at least one item its loop never ends; on no items it returns
    no results at once. *)
Theorem processBatch_keeps_order (items : list T) (concurrency : Z) :
  (0 < concurrency ->
   forall fuel, (length items < fuel)%nat ->
     processBatch fuel items processor concurrency = Some (map processor items))
  /\ (concurrency <= 0 -> items <> [] ->
      forall fuel, processBatch fuel items processor concurrency = None)
  /\ (forall fuel, (0 < fuel)%nat ->
        processBatch fuel [] processor concurrency = Some []).
Proof.
  split; [|split].
  - intros Hc fuel Hfuel. unfold processBatch.
    apply (processBatch_from_forward items concurrency Hc fuel 0); lia.
  - intros Hc Hne fuel. unfold processBatch.
    apply processBatch_from_stuck; [assumption..|lia].
  - intros [|fuel] H; [lia|reflexivity].
Qed.

End Batch.

Lemma processBatch_keeps_order_witness :
  processBatch 8 [1; 2; 3; 4; 5; 6; 7] Z.succ 3 = Some [2; 3; 4; 5; 6; 7; 8]
  /\ processBatch 1000 [1; 2; 3; 4; 5; 6; 7] Z.succ 0 = None.
Proof.
  split.
  - apply (proj1 (processBatch_keeps_order Z.succ [1; 2; 3; 4; 5; 6; 7] 3));
      [lia|simpl; lia].
  - apply (proj1 (proj2 (processBatch_keeps_order Z.succ [1; 2; 3; 4; 5; 6; 7] 0)));
      [lia|discriminate].
Defined.

End PickerProofs.
